(** * i18next-vue: the translation component and the per-component mixin

    A shallow embedding of [src/index.ts], and what holds of it.

    Part I, definitions:
    - [JS]: strings as sequences of UTF-16 code units, with the string
      methods the source calls ([substring], [includes], [join]).
    - [RegExp]: the backtracking matcher behind [RegExp.prototype.exec],
      for the syntax [slotNamePattern] uses, with the [g] and [i] flags and
      the mutable [lastIndex].
    - [TranslationComponent]: the pattern object, the [slots] object with
      what it inherits, the render function returned by [setup], which
      returns or is left by an exception, and the segment view of what it
      pushes.
    - [SlotSyntax], [SlotMatcher]: the placeholder syntax stated without
      the matcher, and the pieces of the matcher the proofs name.
    - [Install]: the mixin hooks [beforeCreate] and [unmounted], the closure
      [__translate] and the global [$t], over a log of catalog calls.

    Part II, properties: the matcher scans without backtracking; [exec]
    splits the input around a match; the render loop pushes the segments up
    to the first slot value that raises, and resets the scan position only
    when it returns; the hooks keep the registered-bundle list in step with
    the additions they log.

    Part III, further properties of the scan, of a render from a stale scan
    position, of the local namespace and of the hooks in closed form. *)

From Stdlib Require Import String Ascii.
From Stdlib Require Import List NArith Arith Bool Lia.
From Stdlib Require Import Sorting.Sorted.
From Stdlib Require DecimalPos DecimalN.
Import ListNotations.

(* ================================================================== *)
(** * Part I: definitions                                              *)
(* ================================================================== *)

(** ** JavaScript strings *)

Module JS.

(** A string is a sequence of 16-bit code units. *)
Definition CodeUnit := N.
Definition JSString := list CodeUnit.

(** ASCII literals, for readable examples. *)
Definition u16 (s : string) : JSString :=
  map N_of_ascii (list_ascii_of_string s).

Definition eqb (a b : JSString) : bool :=
  if list_eq_dec N.eq_dec a b then true else false.

(** [s.substring(start, end)]: both arguments are clamped to the length and
    swapped when [start > end]. *)
Definition substring (s : JSString) (start fin : nat) : JSString :=
  let len := length s in
  let finalStart := Nat.min start len in
  let finalEnd := Nat.min fin len in
  let from := Nat.min finalStart finalEnd in
  let to := Nat.max finalStart finalEnd in
  firstn (to - from) (skipn from s).

(** [s.substring(start)]: the end defaults to the length. *)
Definition substringFrom (s : JSString) (start : nat) : JSString :=
  substring s start (length s).

Fixpoint startsWith (s prefix : JSString) {struct prefix} : bool :=
  match prefix, s with
  | [], _ => true
  | p :: prefix', c :: s' => N.eqb p c && startsWith s' prefix'
  | _ :: _, [] => false
  end.

(** [s.includes(search)]: [search] occurs at some position of [s]. *)
Fixpoint includes (s search : JSString) : bool :=
  startsWith s search ||
  match s with
  | [] => false
  | _ :: s' => includes s' search
  end.

(** [parts.join(sep)] *)
Fixpoint join (sep : JSString) (parts : list JSString) : JSString :=
  match parts with
  | [] => []
  | [p] => p
  | p :: rest => p ++ sep ++ join sep rest
  end.

End JS.

Import JS.

(** ** Regular expressions *)

Module RegExp.

(** A character set is a list of inclusive code-unit ranges. *)
Definition CharSet := list (CodeUnit * CodeUnit).

(** The syntax [slotNamePattern] needs. *)
Inductive Node : Type :=
| PatternCharacter (ch : CodeUnit)      (* a literal character, here { and } *)
| CharacterClass (A : CharSet)          (* [...] and class escapes *)
| Star (n : Node)                       (* n*, greedy *)
| Plus (n : Node)                       (* n+, greedy *)
| Group (n : Node)                      (* ( n ), capture group 1 *)
| Seq (a b : Node).                     (* a b *)

(** The set [\s] denotes: WhiteSpace and LineTerminator code units. *)
Definition WhiteSpace : CharSet :=
  [ (9, 13); (32, 32); (160, 160); (5760, 5760); (8192, 8202);
    (8232, 8233); (8239, 8239); (8287, 8287); (12288, 12288);
    (65279, 65279) ]%N.

Definition rangeElements (r : CodeUnit * CodeUnit) : list CodeUnit :=
  map (fun k => (fst r + N.of_nat k)%N)
      (seq 0 (N.to_nat (snd r + 1 - fst r))).

Definition elements (A : CharSet) : list CodeUnit :=
  flat_map rangeElements A.

(** Canonicalize, without the [u] flag: with [ignoreCase] a code unit is
    compared through its upper-case form.  Only the ASCII letters are mapped
    here; the language maps a code unit above 127 to a code unit above 127,
    and no letter to or from a white-space character, which leaves membership
    in ASCII ranges and in [\s] as computed below. *)
Definition Canonicalize (ignoreCase : bool) (ch : CodeUnit) : CodeUnit :=
  if ignoreCase && (97 <=? ch)%N && (ch <=? 122)%N then (ch - 32)%N else ch.

Definition inSet (ignoreCase : bool) (A : CharSet) (ch : CodeUnit) : bool :=
  existsb (fun a => N.eqb (Canonicalize ignoreCase a) (Canonicalize ignoreCase ch))
          (elements A).

(** A match state: the input not yet consumed, and capture group 1. *)
Record MatchState : Type := mkState {
  rest : JSString;
  capture1 : option JSString
}.

Definition MatchResult := option MatchState.
Definition Continuation := MatchState -> MatchResult.
Definition Matcher := MatchState -> Continuation -> MatchResult.

Definition CharacterSetMatcher (ignoreCase : bool) (A : CharSet) : Matcher :=
  fun x c =>
    match rest x with
    | [] => None
    | ch :: tl =>
        if inSet ignoreCase A ch
        then c (mkState tl (capture1 x))
        else None
    end.

(** RepeatMatcher for an unbounded greedy quantifier with lower bound [min].
    An iteration that consumes nothing is rejected.  [fuel] bounds the number
    of iterations; [compile] passes more than the input can use. *)
Fixpoint RepeatMatcher (m : Matcher) (min : nat) (fuel : nat)
         (x : MatchState) (c : Continuation) : MatchResult :=
  match fuel with
  | 0 => None
  | S fuel' =>
      let d : Continuation := fun y =>
        if (min =? 0) && (length (rest y) =? length (rest x))
        then None
        else RepeatMatcher m (pred min) fuel' y c in
      if min =? 0
      then match m x d with
           | Some z => Some z
           | None => c x
           end
      else m x d
  end.

(** The characters consumed between two states of one match. *)
Definition consumed (x y : MatchState) : JSString :=
  firstn (length (rest x) - length (rest y)) (rest x).

Fixpoint compile (ignoreCase : bool) (n : Node) : Matcher :=
  match n with
  | PatternCharacter ch => CharacterSetMatcher ignoreCase [(ch, ch)]
  | CharacterClass A => CharacterSetMatcher ignoreCase A
  | Star a =>
      fun x c => RepeatMatcher (compile ignoreCase a) 0 (1 + length (rest x)) x c
  | Plus a =>
      fun x c => RepeatMatcher (compile ignoreCase a) 1 (2 + length (rest x)) x c
  | Group a =>
      fun x c =>
        compile ignoreCase a x
                (fun y => c (mkState (rest y) (Some (consumed x y))))
  | Seq a b =>
      fun x c => compile ignoreCase a x (fun y => compile ignoreCase b y c)
  end.

(** A RegExp object: pattern, flags and the mutable [lastIndex]. *)
Record RegExpObject : Type := mkRegExp {
  source : Node;
  global : bool;
  ignoreCase : bool;
  lastIndex : nat
}.

Definition setLastIndex (R : RegExpObject) (i : nat) : RegExpObject :=
  mkRegExp (source R) (global R) (ignoreCase R) (if global R then i else lastIndex R).

(** The array [exec] returns: [index], element 0 and element 1. *)
Record MatchArray : Type := mkMatch {
  index : nat;
  matched : JSString;
  group1 : option JSString
}.

(** The loop of RegExpBuiltinExec: try the matcher at [i], then at [i+1], up
    to and including the end of the input. *)
Fixpoint search (m : Matcher) (i : nat) (suffix : JSString)
  : option (nat * MatchState) :=
  match m (mkState suffix None) (fun y => Some y) with
  | Some y => Some (i, y)
  | None =>
      match suffix with
      | [] => None
      | _ :: tl => search m (S i) tl
      end
  end.

(** [R.exec(S)]: returns the match (or null) and the updated object. *)
Definition exec (R : RegExpObject) (S : JSString)
  : option MatchArray * RegExpObject :=
  let len := length S in
  let li := if global R then lastIndex R else 0 in
  if len <? li then (None, setLastIndex R 0)
  else
    match search (compile (ignoreCase R) (source R)) li (skipn li S) with
    | None => (None, setLastIndex R 0)
    | Some (i, y) =>
        let e := len - length (rest y) in
        (Some (mkMatch i (firstn (e - i) (skipn i S)) (capture1 y)),
         setLastIndex R e)
    end.

End RegExp.

Import RegExp.

(** ** The translation component *)

Module TranslationComponent.

(** Line 176: [new RegExp('{\\s*([a-z0-9\\-]+)\\s*}', 'gi')]. *)
Definition slotNamePattern : RegExpObject :=
  mkRegExp
    (Seq (PatternCharacter 123%N)
      (Seq (Star (CharacterClass WhiteSpace))
        (Seq (Group (Plus (CharacterClass [(97, 122); (48, 57); (45, 45)]%N)))
          (Seq (Star (CharacterClass WhiteSpace))
               (PatternCharacter 125%N)))))
    true true 0.

(** The class [[a-z0-9\-]] of the pattern. *)
Definition nameSet : CharSet := [(97, 122); (48, 57); (45, 45)]%N.

(** The pattern object with its scan position at [li]. *)
Definition atIndex (li : nat) : RegExpObject :=
  mkRegExp (source slotNamePattern) true true li.

Section Render.

(** What a slot produces besides text is opaque here. *)
Variable VNode : Type.

Inductive Child : Type :=
| Text (s : JSString)
| Element (v : VNode).

(** Line 195, [result.push(...slot())]: what calling a value with no
    receiver and no argument, and spreading what it returns, does.
    [Raises] stands for every abrupt end of that line: the value cannot be
    called, the call throws, or what it returns cannot be iterated. *)
Inductive SlotCall : Type :=
| Pushes (items : list Child)
| Raises.

(** The slots a parent passes: the own properties of the [slots] object, by
    name.  A producer returns an array of children or throws.  Producers are
    taken to be pure: they do not run the component themselves. *)
Definition Slots := JSString -> option (unit -> SlotCall).

(** Spreading a string pushes its characters one by one. *)
Definition characters (s : JSString) : list Child :=
  map (fun ch => Text [ch]) s.

(** The [slots] object inherits from [Object.prototype].  These are its
    members under the names the group of the pattern can capture (letters,
    digits and hyphens: [__proto__] and the other names with an underscore
    cannot be captured), each by what [slot()] and the spread do with it:
    - [constructor]: [Object()] returns a new object, which cannot be
      iterated;
    - [toString]: without a receiver it returns "[object Undefined]", a
      string;
    - [isPrototypeOf]: returns [false], which cannot be iterated;
    - [hasOwnProperty], [propertyIsEnumerable], [toLocaleString],
      [valueOf]: throw a TypeError, for want of a receiver. *)
Definition objectPrototype (name : JSString) : option (unit -> SlotCall) :=
  if JS.eqb name (u16 "constructor") then Some (fun _ => Raises)
  else if JS.eqb name (u16 "toString")
       then Some (fun _ => Pushes (characters (u16 "[object Undefined]")))
  else if JS.eqb name (u16 "isPrototypeOf") then Some (fun _ => Raises)
  else if JS.eqb name (u16 "hasOwnProperty") then Some (fun _ => Raises)
  else if JS.eqb name (u16 "propertyIsEnumerable") then Some (fun _ => Raises)
  else if JS.eqb name (u16 "toLocaleString") then Some (fun _ => Raises)
  else if JS.eqb name (u16 "valueOf") then Some (fun _ => Raises)
  else None.

(** [slots[key]]: the own property, else the inherited one. *)
Definition getSlot (slots : Slots) (key : JSString) : option (unit -> SlotCall) :=
  match slots key with
  | Some slot => Some slot
  | None => objectPrototype key
  end.

(** [slots[match[1]]]: an undefined element would be looked up under the
    property name "undefined". *)
Definition propertyKey (g : option JSString) : JSString :=
  match g with
  | Some name => name
  | None => u16 "undefined"
  end.

(** How a render ends: it returns [result], or an exception leaves it. *)
Inductive Completion : Type :=
| Rendered (result : list Child)
| Aborted.

(** Lines 189-201: the [while] loop of the render function and the push
    after it.  The state is the shared [slotNamePattern] object, the local
    [lastIndex] and [result].  An exception at line 195 leaves the loop
    with the pattern object as the last [exec] set it.  [None] stands for a
    loop that has not ended within [fuel] iterations. *)
Fixpoint renderLoop (fuel : nat) (slots : Slots) (translation : JSString)
         (re : RegExpObject) (lastIndex : nat) (result : list Child)
  : option (Completion * RegExpObject) :=
  match fuel with
  | 0 => None
  | S fuel' =>
      match exec re translation with
      | (Some m, re') =>
          let result1 := result ++ [Text (substring translation lastIndex (index m))] in
          match getSlot slots (propertyKey (group1 m)) with
          | Some slot =>
              match slot tt with
              | Pushes items =>
                  renderLoop fuel' slots translation re' (RegExp.lastIndex re')
                             (result1 ++ items)
              | Raises => Some (Aborted, re')
              end
          | None =>
              renderLoop fuel' slots translation re' (RegExp.lastIndex re')
                         (result1 ++ [Text (matched m)])
          end
      | (None, re') =>
          Some (Rendered (result ++ [Text (substringFrom translation lastIndex)]), re')
      end
  end.

(** Lines 185-203: the function [setup] returns, run on the current state
    of the pattern object. *)
Definition setup (translation : JSString) (slots : Slots) (re : RegExpObject)
  : option (Completion * RegExpObject) :=
  renderLoop (1 + length translation) slots translation re 0 [].

End Render.

Arguments Text {VNode} s.
Arguments Element {VNode} v.
Arguments Pushes {VNode} items.
Arguments Raises {VNode}.
Arguments Rendered {VNode} result.
Arguments Aborted {VNode}.
Arguments characters {VNode} s.
Arguments objectPrototype {VNode} name.
Arguments getSlot {VNode} slots key.
Arguments renderLoop {VNode} fuel slots translation re lastIndex result.
Arguments setup {VNode} translation slots re.

(** *** The parsed form of a template

    The render function never builds the segment sequence on its own; the
    definitions below name what its loop pushes before a slot is filled. *)

(** The successive non-null results of [exec] on one input. *)
Fixpoint execAll (fuel : nat) (re : RegExpObject) (translation : JSString)
  : list MatchArray :=
  match fuel with
  | 0 => []
  | S fuel' =>
      match exec re translation with
      | (Some m, re') => m :: execAll fuel' re' translation
      | (None, _) => []
      end
  end.

(** The placeholders of a template: what the loop's [exec] calls return when
    the pattern object starts at [lastIndex = 0]. *)
Definition placeholders (translation : JSString) : list MatchArray :=
  execAll (1 + length translation) slotNamePattern translation.

(** Where a match ends. *)
Definition endIndex (m : MatchArray) : nat := index m + length (matched m).

Inductive Segment : Type :=
| Literal (text : JSString)
| SlotReference (name : JSString) (matchedText : JSString).

Fixpoint segmentsFrom (translation : JSString) (lastIndex : nat)
         (ms : list MatchArray) : list Segment :=
  match ms with
  | [] => [Literal (substringFrom translation lastIndex)]
  | m :: ms' =>
      Literal (substring translation lastIndex (index m))
      :: SlotReference (propertyKey (group1 m)) (matched m)
      :: segmentsFrom translation (endIndex m) ms'
  end.

Definition segments (translation : JSString) : list Segment :=
  segmentsFrom translation 0 (placeholders translation).

(** Literal text verbatim, a slot reference by its matched text. *)
Definition segmentText (seg : Segment) : JSString :=
  match seg with
  | Literal text => text
  | SlotReference _ matchedText => matchedText
  end.

Definition reconstruct (segs : list Segment) : JSString :=
  flat_map segmentText segs.

Definition isLiteral (seg : Segment) : bool :=
  match seg with
  | Literal _ => true
  | SlotReference _ _ => false
  end.

(** What one segment contributes to the rendered sequence, if the lookup of
    its name does not end the render. *)
Definition fill {VNode : Type} (slots : Slots VNode) (seg : Segment)
  : SlotCall VNode :=
  match seg with
  | Literal text => Pushes [Text text]
  | SlotReference name matchedText =>
      match getSlot slots name with
      | Some slot => slot tt
      | None => Pushes [Text matchedText]
      end
  end.

(** The contributions of the segments one after the other, up to the first
    that raises. *)
Fixpoint fillAll {VNode : Type} (slots : Slots VNode) (segs : list Segment)
  : SlotCall VNode :=
  match segs with
  | [] => Pushes []
  | seg :: rest =>
      match fill slots seg with
      | Pushes items =>
          match fillAll slots rest with
          | Pushes out => Pushes (items ++ out)
          | Raises => Raises
          end
      | Raises => Raises
      end
  end.

Definition completion {VNode : Type} (c : SlotCall VNode) : Completion VNode :=
  match c with
  | Pushes out => Rendered out
  | Raises => Aborted
  end.

(** The loop over the matches [ms] that [exec] is going to return: what it
    returns or where it is left, and the scan position it leaves in the
    pattern object. *)
Fixpoint weave {VNode : Type} (slots : Slots VNode) (translation : JSString)
         (lastIndex : nat) (ms : list MatchArray) (result : list (Child VNode))
  : Completion VNode * RegExpObject :=
  match ms with
  | [] => (Rendered (result ++ [Text (substringFrom translation lastIndex)]), atIndex 0)
  | m :: ms' =>
      let result1 := result ++ [Text (substring translation lastIndex (index m))] in
      match getSlot slots (propertyKey (group1 m)) with
      | Some slot =>
          match slot tt with
          | Pushes items => weave slots translation (endIndex m) ms' (result1 ++ items)
          | Raises => (Aborted, atIndex (endIndex m))
          end
      | None => weave slots translation (endIndex m) ms' (result1 ++ [Text (matched m)])
      end
  end.

(** Where the literal in front of placeholder [n] starts: at 0, or where
    placeholder [n - 1] ends. *)
Definition literalStart (ms : list MatchArray) (n : nat) : nat :=
  match n with
  | 0 => 0
  | S n' =>
      match nth_error ms n' with
      | Some m => endIndex m
      | None => 0
      end
  end.

Definition literalStartFrom (li : nat) (ms : list MatchArray) (n : nat) : nat :=
  match n with
  | 0 => li
  | S _ => literalStart ms n
  end.

(** Renders one after the other on the shared pattern object, each with the
    template and the slots of its component. *)
Fixpoint renderAll {VNode : Type}
         (renders : list (JSString * Slots VNode)) (re : RegExpObject)
  : option (list (Completion VNode) * RegExpObject) :=
  match renders with
  | [] => Some ([], re)
  | (t, slots) :: rest =>
      match setup t slots re with
      | Some (c, re1) =>
          match renderAll rest re1 with
          | Some (cs, re2) => Some (c :: cs, re2)
          | None => None
          end
      | None => None
      end
  end.

(** Slots [{name: () => ["Bob"], count: () => ["5"]}]. *)
Definition bobSlots {VNode : Type} : Slots VNode :=
  fun name =>
    if JS.eqb name (u16 "name") then Some (fun _ => Pushes [Text (u16 "Bob")])
    else if JS.eqb name (u16 "count") then Some (fun _ => Pushes [Text (u16 "5")])
    else None.

(** Slots [{a: () => { throw ... }}]. *)
Definition failingSlots {VNode : Type} : Slots VNode :=
  fun name => if JS.eqb name (u16 "a") then Some (fun _ => Raises) else None.

(** No slot passed: the [slots] object has no own property. *)
Definition noSlots {VNode : Type} : Slots VNode := fun _ => None.

(** The substring of [translation] from [i] up to [j] is one of the
    placeholders the loop finds. *)
Definition recognized (translation : JSString) (i j : nat) : Prop :=
  exists m, In m (placeholders translation) /\ index m = i /\ endIndex m = j.

End TranslationComponent.

(** ** The placeholder syntax, stated without the matcher *)

Module SlotSyntax.

Definition isLower (ch : CodeUnit) : bool := ((97 <=? ch) && (ch <=? 122))%N.
Definition isUpper (ch : CodeUnit) : bool := ((65 <=? ch) && (ch <=? 90))%N.
Definition isDigit (ch : CodeUnit) : bool := ((48 <=? ch) && (ch <=? 57))%N.
Definition isHyphen (ch : CodeUnit) : bool := (ch =? 45)%N.

(** Membership in [\s], case playing no part. *)
Definition isWhiteSpace (ch : CodeUnit) : bool := inSet false WhiteSpace ch.

(** Name characters: lower-case letters, digits and the hyphen only. *)
Definition lowerNameChar (ch : CodeUnit) : bool :=
  isLower ch || isDigit ch || isHyphen ch.

(** Name characters: letters of either case, digits and the hyphen. *)
Definition nameChar (ch : CodeUnit) : bool :=
  isLower ch || isUpper ch || isDigit ch || isHyphen ch.

(** [w] is an opening brace, white space, the non-empty [name], white space
    and a closing brace. *)
Definition slotText (nameOk : CodeUnit -> bool) (w name : JSString) : Prop :=
  exists ws1 ws2,
    w = 123%N :: ws1 ++ name ++ ws2 ++ [125%N] /\
    forallb isWhiteSpace ws1 = true /\
    name <> [] /\
    forallb nameOk name = true /\
    forallb isWhiteSpace ws2 = true.

Fixpoint takeWhile (p : CodeUnit -> bool) (s : JSString) : JSString :=
  match s with
  | ch :: s' => if p ch then ch :: takeWhile p s' else []
  | [] => []
  end.

Fixpoint dropWhile (p : CodeUnit -> bool) (s : JSString) : JSString :=
  match s with
  | ch :: s' => if p ch then dropWhile p s' else s
  | [] => []
  end.

(** A scanner without backtracking: the name and the input left after a
    placeholder at the head of [s]. *)
Definition scanSlot (nameOk : CodeUnit -> bool) (s : JSString)
  : option (JSString * JSString) :=
  match s with
  | ch :: s1 =>
      if (ch =? 123)%N then
        let s2 := dropWhile isWhiteSpace s1 in
        match takeWhile nameOk s2 with
        | [] => None
        | name =>
            match dropWhile isWhiteSpace (dropWhile nameOk s2) with
            | ch' :: s5 => if (ch' =? 125)%N then Some (name, s5) else None
            | [] => None
            end
        end
      else None
  | [] => None
  end.

(** The first placeholder at or after the head of [s]: its offset from [i],
    its name and the input after it. *)
Fixpoint findSlot (p : CodeUnit -> bool) (i : nat) (s : JSString)
  : option (nat * JSString * JSString) :=
  match scanSlot p s with
  | Some (name, s') => Some (i, name, s')
  | None =>
      match s with
      | [] => None
      | _ :: tl => findSlot p (S i) tl
      end
  end.

(** The slice of [s] from [i] up to [j]. *)
Definition slice (s : JSString) (i j : nat) : JSString :=
  firstn (j - i) (skipn i s).

End SlotSyntax.

(** ** The pieces of the pattern's matcher *)

Module SlotMatcher.

Import TranslationComponent.

Definition slotMatcher : Matcher :=
  compile (ignoreCase slotNamePattern) (source slotNamePattern).

(** [}] *)
Definition closeBrace : Continuation :=
  fun y => compile true (PatternCharacter 125%N) y (fun z => Some z).

(** [\s*}] *)
Definition trailer : Continuation :=
  fun y => compile true (Seq (Star (CharacterClass WhiteSpace))
                             (PatternCharacter 125%N)) y (fun z => Some z).

(** [([a-z0-9\-]+)\s*}] *)
Definition nameAndTrailer : Continuation :=
  fun y => compile true
             (Seq (Group (Plus (CharacterClass nameSet)))
                  (Seq (Star (CharacterClass WhiteSpace))
                       (PatternCharacter 125%N))) y (fun z => Some z).

End SlotMatcher.

Import TranslationComponent.
Import SlotSyntax.
Import SlotMatcher.

(** ** The mixin and the global translate function *)

Module Install.

(** [type Messages = { [index: string]: string | Messages }], an object as the
    list [Object.entries] enumerates.  [MsgOther] is a value outside the
    declared type, which [JSON.parse] can produce (a number, a boolean,
    [null], an array), by its JSON text; the hooks pass resources on without
    reading them. *)
#[local] Unset Elimination Schemes.

Inductive MessageValue : Type :=
| MsgString (s : JSString)
| MsgObject (entries : list (JSString * MessageValue))
| MsgOther (json : JSString).

#[local] Set Elimination Schemes.

Definition Messages := list (JSString * MessageValue).

(** A value handed to [loadBundle].  What [JSON.parse] returns is not
    checked against [Messages]: it can be [null], on which [Object.entries]
    throws a TypeError.  Any other value is taken as the list of entries
    [Object.entries] enumerates for it. *)
Inductive BundleValue : Type :=
| JSnull
| JSobject (entries : Messages).

(** [namespaces?: string | string[]] *)
Inductive Namespaces : Type :=
| NsString (s : JSString)
| NsArray (l : list JSString).

Record I18nOptions : Type := mkI18nOptions {
  lng : option JSString;
  keyPrefix : option JSString;
  namespaces : option Namespaces;
  messages : option Messages
}.

Record ComponentOptions : Type := mkOptions {
  name : option JSString;
  __i18n : option (list JSString);
  i18nOptions : option I18nOptions
}.

(** What the hooks read from the catalog object.  [nsSeparator] is [None]
    when the option is not a string. *)
Record I18n : Type := mkI18n {
  isInitialized : bool;
  nsSeparator : option JSString;
  defaultNS : option Namespaces
}.

(** A lookup function of the catalog: [i18next.t] bound to the catalog, or
    the result of [getFixedT]. *)
Inductive TFunction : Type :=
| genericT
| fixedT (lng : option JSString) (ns : option (list JSString)).

(** The closure stored in [__translate] captures [keyPrefix] and [t]. *)
Record TranslateClosure : Type := mkClosure {
  closure_keyPrefix : option JSString;
  closure_t : TFunction
}.

Record ComponentI18nInstance : Type := mkInstance {
  dollar_options : ComponentOptions;
  __bundles : option (list (JSString * JSString));
  __translate : option TranslateClosure
}.

Inductive Error : Type :=
| SyntaxError
| TypeError.

Inductive Outcome (A : Type) : Type :=
| Returned (a : A)
| Thrown (e : Error).

Arguments Returned {A} a.
Arguments Thrown {A} e.

(** Truthiness of an optional string: [undefined] and [""] are falsy. *)
Definition truthy (s : option JSString) : bool :=
  match s with
  | Some (_ :: _) => true
  | _ => false
  end.

Definition isDefined {A : Type} (x : option A) : bool :=
  match x with
  | Some _ => true
  | None => false
  end.

Fixpoint digits (u : Decimal.uint) : JSString :=
  match u with
  | Decimal.Nil => []
  | Decimal.D0 u' => 48%N :: digits u'
  | Decimal.D1 u' => 49%N :: digits u'
  | Decimal.D2 u' => 50%N :: digits u'
  | Decimal.D3 u' => 51%N :: digits u'
  | Decimal.D4 u' => 52%N :: digits u'
  | Decimal.D5 u' => 53%N :: digits u'
  | Decimal.D6 u' => 54%N :: digits u'
  | Decimal.D7 u' => 55%N :: digits u'
  | Decimal.D8 u' => 56%N :: digits u'
  | Decimal.D9 u' => 57%N :: digits u'
  end.

(** [n.toString()] for a non-negative integer. *)
Definition toString (n : N) : JSString := digits (N.to_uint n).

(** [[name, rand].filter(x => !!x).join("-")], where [rand] is the integer
    [(Math.random() * 10 ** 8) | 0]. *)
Definition localNamespace (name : option JSString) (rand : N) : JSString :=
  join (u16 "-")
       (map (fun x => match x with Some s => s | None => [] end)
            (filter truthy [name; Some (toString rand)])).

Section Catalog.

(** The second argument of a lookup is opaque. *)
Variable TOptions : Type.

(** The catalog the plugin was installed with. *)
Variable i18next : I18n.

(** What a lookup function of the catalog answers. *)
Variable lookup : TFunction -> JSString -> option TOptions -> JSString.

(** [JSON.parse] on the text of an <i18n> block; [None] when it throws
    (a SyntaxError). *)
Variable JSON_parse : JSString -> option BundleValue.

(** The observable effects: calls on the catalog, calls of its lookup
    functions and reads of the reactive marker. *)
Inductive Call : Type :=
| addResourceBundle (lng ns : JSString) (resources : MessageValue) (deep overwrite : bool)
| removeResourceBundle (lng ns : JSString)
| loadNamespaces (ns : list JSString)
| getFixedT (lng : option JSString) (ns : option (list JSString))
| translate (t : TFunction) (key : JSString) (options : option TOptions)
| usingI18n.

(** A hook runs on [this], may throw, and leaves a log of calls. *)
Definition M (A : Type) : Type :=
  ComponentI18nInstance -> Outcome A * ComponentI18nInstance * list Call.

Definition ret {A : Type} (a : A) : M A :=
  fun this => (Returned a, this, []).

Definition bind {A B : Type} (m : M A) (f : A -> M B) : M B :=
  fun this =>
    match m this with
    | (Returned a, this1, log1) =>
        match f a this1 with
        | (r, this2, log2) => (r, this2, log1 ++ log2)
        end
    | (Thrown e, this1, log1) => (Thrown e, this1, log1)
    end.

Definition throw {A : Type} (e : Error) : M A :=
  fun this => (Thrown e, this, []).

Definition call (c : Call) : M unit :=
  fun this => (Returned tt, this, [c]).

Definition getThis : M ComponentI18nInstance :=
  fun this => (Returned this, this, []).

Definition putThis (this' : ComponentI18nInstance) : M unit :=
  fun _ => (Returned tt, this', []).

Notation "x <- m ;; k" := (bind m (fun x => k))
  (at level 61, m at next level, right associativity).
Notation "m ;; k" := (bind m (fun _ => k))
  (at level 61, right associativity).

(** [xs.forEach(f)] *)
Fixpoint forEach {A : Type} (f : A -> M unit) (xs : list A) : M unit :=
  match xs with
  | [] => ret tt
  | x :: xs' => f x ;; forEach f xs'
  end.

(** [this.__bundles = v] *)
Definition set__bundles (v : option (list (JSString * JSString))) : M unit :=
  this <- getThis ;;
  putThis (mkInstance (dollar_options this) v (__translate this)).

(** [this.__translate = v] *)
Definition set__translate (v : option TranslateClosure) : M unit :=
  this <- getThis ;;
  putThis (mkInstance (dollar_options this) (__bundles this) v).

(** [this.__bundles!.push(entry)] *)
Definition push__bundles (entry : JSString * JSString) : M unit :=
  this <- getThis ;;
  match __bundles this with
  | Some bundles => set__bundles (Some (bundles ++ [entry]))
  | None => throw TypeError
  end.

(** [Object.entries(bundle)] *)
Definition Object_entries (bundle : BundleValue) : M Messages :=
  match bundle with
  | JSobject entries => ret entries
  | JSnull => throw TypeError
  end.

(** Lines 72-77. *)
Definition loadBundle (localNs : JSString) (bundle : BundleValue) : M unit :=
  entries <- Object_entries bundle ;;
  forEach (fun entry =>
             call (addResourceBundle (fst entry) localNs (snd entry) true false) ;;
             push__bundles (fst entry, localNs))
          entries.

(** Lines 135-160.  [messages] is an object when it is truthy. *)
Definition handleI18nOptions (options : ComponentOptions)
           (loadBundle : BundleValue -> M unit)
  : M (option JSString * option (list JSString) * option JSString) :=
  match i18nOptions options with
  | Some o =>
      let namespaces :=
        match namespaces o with
        | Some n => Some n
        | None => defaultNS i18next
        end in
      match messages o with
      | Some m => loadBundle (JSobject m)
      | None => ret tt
      end ;;
      let ns :=
        match namespaces with
        | Some (NsString s) => Some [s]
        | Some (NsArray l) => Some l
        | None => None
        end in
      match ns with
      | Some l => call (loadNamespaces l)
      | None => ret tt
      end ;;
      ret (lng o, ns, keyPrefix o)
  | None => ret (None, None, None)
  end.

(** Lines 120-128. *)
Definition getTranslationFunction (lng : option JSString)
           (ns : option (list JSString)) : M TFunction :=
  if truthy lng then
    call (getFixedT lng ns) ;; ret (fixedT lng ns)
  else
    match ns with
    | Some _ => call (getFixedT None ns) ;; ret (fixedT None ns)
    | None => ret genericT
    end.

(** Lines 58-97: the [beforeCreate] hook of the mixin. *)
Definition beforeCreate (rand : N) : M unit :=
  this <- getThis ;;
  let options := dollar_options this in
  if negb (isDefined (__i18n options)) && negb (isDefined (i18nOptions options))
  then set__translate None
  else
    let localNs := localNamespace (name options) rand in
    set__bundles (Some []) ;;
    match __i18n options with
    | Some blocks =>
        forEach (fun bundle =>
                   match JSON_parse bundle with
                   | Some parsed => loadBundle localNs parsed
                   | None => throw SyntaxError
                   end)
                blocks
    | None => ret tt
    end ;;
    r <- handleI18nOptions options (loadBundle localNs) ;;
    let '(lng, ns, keyPrefix) := r in
    this1 <- getThis ;;
    let ns :=
      match __bundles this1 with
      | Some (_ :: _) =>
          Some (localNs :: match ns with Some l => l | None => [] end)
      | _ => ns
      end in
    t <- getTranslationFunction lng ns ;;
    set__translate (Some (mkClosure keyPrefix t)).

(** Lines 98-100: the [unmounted] hook of the mixin. *)
Definition unmounted : M unit :=
  this <- getThis ;;
  match __bundles this with
  | Some bundles =>
      forEach (fun entry => call (removeResourceBundle (fst entry) (snd entry)))
              bundles
  | None => ret tt
  end.

(** Calling a lookup function of the catalog. *)
Definition callT (t : TFunction) (key : JSString) (options : option TOptions)
  : JSString * list Call :=
  (lookup t key options, [translate t key options]).

(** Lines 130-133. *)
Definition includesNs (key : JSString) : bool :=
  match nsSeparator i18next with
  | Some sep => includes key sep
  | None => false
  end.

(** Lines 90-96: the body of the closure [this.__translate]. *)
Definition applyTranslate (c : TranslateClosure) (key : JSString)
           (options : option TOptions) : JSString * list Call :=
  if negb (truthy (closure_keyPrefix c)) || includesNs key
  then callT (closure_t c) key options
  else callT (closure_t c)
             (match closure_keyPrefix c with Some p => p | None => [] end
              ++ u16 "." ++ key)
             options.

(** Lines 103-110: [app.config.globalProperties.$t], with [this] possibly
    undefined. *)
Definition dollar_t (this : option ComponentI18nInstance) (key : JSString)
           (options : option TOptions) : JSString * list Call :=
  let log := [usingI18n] in
  if isInitialized i18next then
    let r :=
      match match this with Some i => __translate i | None => None end with
      | Some c => applyTranslate c key options
      | None => callT genericT key options
      end in
    (fst r, log ++ snd r)
  else (key, log).

(** What [beforeCreate] does once the registered-bundle list is allocated:
    lines 80-96, named for the proofs. *)
Definition afterAllocation (options : ComponentOptions) (rand : N) : M unit :=
  let localNs := localNamespace (name options) rand in
  bind match __i18n options with
       | Some blocks =>
           forEach (fun bundle =>
                      match JSON_parse bundle with
                      | Some parsed => loadBundle localNs parsed
                      | None => throw SyntaxError
                      end)
                   blocks
       | None => ret tt
       end
       (fun _ =>
          bind (handleI18nOptions options (loadBundle localNs))
               (fun r =>
                  let '(lng, ns, keyPrefix) := r in
                  bind getThis
                       (fun this1 =>
                          let ns :=
                            match __bundles this1 with
                            | Some (_ :: _) =>
                                Some (localNs :: match ns with Some l => l | None => [] end)
                            | _ => ns
                            end in
                          bind (getTranslationFunction lng ns)
                               (fun t => set__translate (Some (mkClosure keyPrefix t)))))).

End Catalog.

Arguments addResourceBundle {TOptions} lng ns resources deep overwrite.
Arguments removeResourceBundle {TOptions} lng ns.
Arguments loadNamespaces {TOptions} ns.
Arguments getFixedT {TOptions} lng ns.
Arguments translate {TOptions} t key options.
Arguments usingI18n {TOptions}.
Arguments ret {TOptions A} a.
Arguments bind {TOptions A B} m f.
Arguments throw {TOptions A} e.
Arguments call {TOptions} c.
Arguments getThis {TOptions}.
Arguments putThis {TOptions} this'.
Arguments forEach {TOptions A} f xs.
Arguments set__bundles {TOptions} v.
Arguments set__translate {TOptions} v.
Arguments push__bundles {TOptions} entry.
Arguments Object_entries {TOptions} bundle.
Arguments loadBundle {TOptions} localNs bundle.
Arguments handleI18nOptions {TOptions} i18next options loadBundle.
Arguments getTranslationFunction {TOptions} lng ns.
Arguments beforeCreate {TOptions} i18next JSON_parse rand.
Arguments unmounted {TOptions}.
Arguments callT {TOptions} lookup t key options.
Arguments applyTranslate {TOptions} i18next lookup c key options.
Arguments dollar_t {TOptions} i18next lookup this key options.
Arguments afterAllocation {TOptions} i18next JSON_parse options rand.

(** A component instance before any hook has run. *)
Definition newInstance (options : ComponentOptions) : ComponentI18nInstance :=
  mkInstance options None None.

(** The registered-bundle list, empty when it was never allocated. *)
Definition bundlesOf (this : ComponentI18nInstance) : list (JSString * JSString) :=
  match __bundles this with
  | Some bundles => bundles
  | None => []
  end.

(** The (language, namespace) pairs of the bundle additions in a log. *)
Definition addedPairs {TOptions : Type} (log : list (Call TOptions))
  : list (JSString * JSString) :=
  flat_map (fun c => match c with
                     | addResourceBundle lng ns _ _ _ => [(lng, ns)]
                     | _ => []
                     end) log.

(** The (language, namespace) pairs of the bundle removals in a log. *)
Definition removedPairs {TOptions : Type} (log : list (Call TOptions))
  : list (JSString * JSString) :=
  flat_map (fun c => match c with
                     | removeResourceBundle lng ns => [(lng, ns)]
                     | _ => []
                     end) log.

Definition isRemoval {TOptions : Type} (c : Call TOptions) : bool :=
  match c with
  | removeResourceBundle _ _ => true
  | _ => false
  end.

(** The invariant of the registrar: once the list is allocated, it grows by
    exactly the pairs of the additions the hook logs. *)
Definition tracks {TOptions A : Type} (m : M TOptions A) : Prop :=
  forall this bs,
    __bundles this = Some bs ->
    __bundles (snd (fst (m this))) = Some (bs ++ addedPairs (snd (m this))).

(** Every call a hook logs satisfies [P]. *)
Definition emits {TOptions : Type} (P : Call TOptions -> Prop) {A : Type}
           (m : M TOptions A) : Prop :=
  forall this, Forall P (snd (m this)).

(** A call is an addition into [localNs] with [deep = true] and
    [overwrite = false], or no addition at all. *)
Definition addsWithFixedFlags {TOptions : Type} (localNs : JSString)
           (c : Call TOptions) : Prop :=
  match c with
  | addResourceBundle _ ns _ deep overwrite =>
      ns = localNs /\ deep = true /\ overwrite = false
  | _ => True
  end.

(** The [overwrite] argument of a bundle addition. *)
Definition requestsOverwrite {TOptions : Type} (c : Call TOptions) : bool :=
  match c with
  | addResourceBundle _ _ _ _ overwrite => overwrite
  | _ => false
  end.

(** The namespaces a component declares, or the catalog's default. *)
Definition declaredNamespaces (i18next : I18n) (options : ComponentOptions)
  : list JSString :=
  match i18nOptions options with
  | Some o =>
      match match namespaces o with
            | Some n => Some n
            | None => defaultNS i18next
            end with
      | Some (NsString s) => [s]
      | Some (NsArray l) => l
      | None => []
      end
  | None => []
  end.

End Install.

(** ** The text of a rendered sequence *)

Module RenderText.

(** The printable text of one rendered element; what a producer returns
    besides text prints as nothing here. *)
Definition childText {VNode : Type} (c : Child VNode) : JSString :=
  match c with
  | Text s => s
  | Element _ => []
  end.

Definition outputText {VNode : Type} (out : list (Child VNode)) : JSString :=
  flat_map childText out.

End RenderText.

(** ** The installer's subscriptions *)

Module Bridge.

(** [rerenderOn?: ('languageChanged' | 'loaded' | 'added' | 'removed')[]] *)
Inductive RerenderEvent : Type :=
| languageChanged
| loaded
| added
| removed.

(** Where a handler is registered: [i18next.on] or [i18next.store.on]. *)
Inductive Emitter : Type :=
| onCatalog
| onStore.

(** One call [emitter.on(event, invalidate)]; the handler is [invalidate]
    in every call. *)
Record Subscription : Type := mkSubscription {
  emitter : Emitter;
  event : RerenderEvent
}.

(** Line 36: the default of [rerenderOn]. *)
Definition defaultRerenderOn : list RerenderEvent :=
  [languageChanged; loaded; added; removed].

(** Lines 45-53: the [switch] on one event.  [hasStore] tells whether
    [i18next.store] is defined. *)
Definition subscribeOne (hasStore : bool) (ev : RerenderEvent)
  : list Subscription :=
  match ev with
  | added | removed =>
      if hasStore then [mkSubscription onStore ev] else []
  | _ => [mkSubscription onCatalog ev]
  end.

(** Lines 44-54: [rerenderOn.forEach(...)], as the calls it makes. *)
Definition subscribe (hasStore : bool) (rerenderOn : list RerenderEvent)
  : list Subscription :=
  flat_map (subscribeOne hasStore) rerenderOn.

Definition isStoreEvent (ev : RerenderEvent) : bool :=
  match ev with
  | added | removed => true
  | _ => false
  end.

End Bridge.

(** ** What [beforeCreate] resolves, stated without the hook *)

Module Resolution.

Import Install.

Definition declaredLng (options : ComponentOptions) : option JSString :=
  match i18nOptions options with
  | Some o => lng o
  | None => None
  end.

Definition declaredKeyPrefix (options : ComponentOptions) : option JSString :=
  match i18nOptions options with
  | Some o => keyPrefix o
  | None => None
  end.

(** The entries of [i18nOptions.messages]. *)
Definition messagesEntries (options : ComponentOptions) : Messages :=
  match i18nOptions options with
  | Some o => match messages o with Some m => m | None => [] end
  | None => []
  end.

(** The namespace list [handleI18nOptions] returns: the declared
    namespaces, else the catalog's default, a single string as a list of
    one. *)
Definition resolvedNs (i18next : I18n) (options : ComponentOptions)
  : option (list JSString) :=
  match i18nOptions options with
  | Some o =>
      match match namespaces o with
            | Some n => Some n
            | None => defaultNS i18next
            end with
      | Some (NsString s) => Some [s]
      | Some (NsArray l) => Some l
      | None => None
      end
  | None => None
  end.

(** The entries of the <i18n> blocks in front of the first block that
    fails, and the error of that block: a SyntaxError when it does not
    parse, a TypeError when it parses to [null]. *)
Fixpoint loadBlocks (JSON_parse : JSString -> option BundleValue)
         (blocks : list JSString) : Messages * option Error :=
  match blocks with
  | [] => ([], None)
  | block :: blocks' =>
      match JSON_parse block with
      | Some (JSobject parsed) =>
          (parsed ++ fst (loadBlocks JSON_parse blocks'),
           snd (loadBlocks JSON_parse blocks'))
      | Some JSnull => ([], Some TypeError)
      | None => ([], Some SyntaxError)
      end
  end.

(** The text of an <i18n> block with one English bundle: an opening brace,
    the key en in quotes, a colon, the object with the key hello and the
    string Hello, and a closing brace. *)
Definition helloBlock : JSString :=
  [123; 34; 101; 110; 34; 58; 123; 34; 104; 101; 108; 108; 111; 34; 58;
   34; 72; 101; 108; 108; 111; 34; 125; 125]%N.

(** [JSON.parse] on the block texts of the examples: [helloBlock], the text
    "null", and texts that are no JSON, such as "{". *)
Definition sampleParse (block : JSString) : option BundleValue :=
  if JS.eqb block helloBlock
  then Some (JSobject [(u16 "en", MsgObject [(u16 "hello", MsgString (u16 "Hello"))])])
  else if JS.eqb block (u16 "null") then Some JSnull
  else None.

(** How loading one <i18n> block fails, if it does. *)
Definition blockError (JSON_parse : JSString -> option BundleValue)
           (block : JSString) : option Error :=
  match JSON_parse block with
  | Some (JSobject _) => None
  | Some JSnull => Some TypeError
  | None => Some SyntaxError
  end.

Definition blocksOf (options : ComponentOptions) : list JSString :=
  match __i18n options with
  | Some blocks => blocks
  | None => []
  end.

(** The namespace list the lookup function is built on. *)
Definition namespacesUsed (localNs : JSString) (entries : Messages)
           (ns : option (list JSString)) : option (list JSString) :=
  match entries with
  | [] => ns
  | _ :: _ => Some (localNs :: match ns with Some l => l | None => [] end)
  end.

(** The function [getTranslationFunction] returns, and the call it makes. *)
Definition functionFor (lng : option JSString) (ns : option (list JSString))
  : TFunction :=
  if truthy lng then fixedT lng ns
  else match ns with
       | Some _ => fixedT None ns
       | None => genericT
       end.

Definition functionCalls {TOptions : Type} (lng : option JSString)
           (ns : option (list JSString)) : list (Call TOptions) :=
  if truthy lng then [getFixedT lng ns]
  else match ns with
       | Some _ => [getFixedT None ns]
       | None => []
       end.

Definition namespaceCalls {TOptions : Type} (ns : option (list JSString))
  : list (Call TOptions) :=
  match ns with
  | Some l => [loadNamespaces l]
  | None => []
  end.

Definition additions {TOptions : Type} (localNs : JSString) (entries : Messages)
  : list (Call TOptions) :=
  map (fun entry => addResourceBundle (fst entry) localNs (snd entry) true false)
      entries.

Definition registered (localNs : JSString) (entries : Messages)
  : list (JSString * JSString) :=
  map (fun entry => (fst entry, localNs)) entries.

Definition isAddition {TOptions : Type} (c : Call TOptions) : bool :=
  match c with
  | addResourceBundle _ _ _ _ _ => true
  | _ => false
  end.

End Resolution.

(** ** The catalog facade and [useTranslation] *)

Module UseTranslation.

Import Install.

Section Facade.

Variable TOptions : Type.
Variable i18next : I18n.
Variable lookup : TFunction -> JSString -> option TOptions -> JSString.

(** Lines 112-117: the [get] trap of the [$i18next] proxy; [prop] reads
    the property off the catalog. *)
Definition dollar_i18next_get {A : Type} (prop : I18n -> A)
  : A * list (Call TOptions) :=
  (prop i18next, [usingI18n]).

(** What [getCurrentInstance()] returns, as far as [useTranslation] reads
    it: whether the plugin has installed its global properties, and the
    component proxy, which may be null. *)
Record ComponentInternalInstance : Type := mkInternal {
  pluginInstalled : bool;
  proxy : option ComponentI18nInstance
}.

Inductive UseTranslationError : Type :=
| NoVueInstance (message : JSString)     (* the [Error] thrown at line 166 *)
| BindOfUndefined.                       (* [globalProps.$t] is undefined *)

Record UseTranslationResult : Type := mkResult {
  result_i18next : forall A : Type, (I18n -> A) -> A * list (Call TOptions);
  result_t : JSString -> option TOptions -> JSString * list (Call TOptions)
}.

(** Lines 163-173. *)
Definition useTranslation (instance : option ComponentInternalInstance)
  : UseTranslationError + UseTranslationResult :=
  match instance with
  | None =>
      inl (NoVueInstance
             (u16 "i18next-vue: No Vue instance in context. Make sure to register the i18next-vue plugin using app.use(...)."))
  | Some inst =>
      if pluginInstalled inst
      then inr (mkResult (@dollar_i18next_get)
                         (dollar_t i18next lookup (proxy inst)))
      else inl BindOfUndefined
  end.

End Facade.

Arguments dollar_i18next_get {TOptions} i18next {A} prop.
Arguments useTranslation {TOptions} i18next lookup instance.
Arguments result_i18next {TOptions} u A prop.
Arguments result_t {TOptions} u key options.

End UseTranslation.

(* ================================================================== *)
(** * Part II: properties                                              *)
(* ================================================================== *)

(** ** Character sets *)

Module CharSetFacts.

#[local] Open Scope N_scope.

Lemma below_128_table (f g : N -> bool) :
  forallb (fun k => Bool.eqb (f (N.of_nat k)) (g (N.of_nat k))) (seq 0 128) = true ->
  forall ch, ch < 128 -> f ch = g ch.
Proof.
  intros Htab ch Hch.
  rewrite forallb_forall in Htab.
  specialize (Htab (N.to_nat ch)).
  rewrite N2Nat.id in Htab.
  apply Bool.eqb_prop, Htab, in_seq. lia.
Qed.

Lemma Canonicalize_high ic ch : 128 <= ch -> Canonicalize ic ch = ch.
Proof.
  intros H. unfold Canonicalize.
  destruct (ch <=? 122) eqn:E; [apply N.leb_le in E; lia|].
  now rewrite andb_false_r.
Qed.

Lemma Canonicalize_low ic a : a < 128 -> Canonicalize ic a < 128.
Proof.
  intros H. unfold Canonicalize.
  destruct (ic && (97 <=? a) && (a <=? 122)); lia.
Qed.

Lemma existsb_agree {A : Type} (f g : A -> bool) (l : list A) :
  Forall (fun a => f a = g a) l -> existsb f l = existsb g l.
Proof.
  induction 1 as [|a l Ha _ IH]; simpl; [reflexivity|].
  now rewrite Ha, IH.
Qed.

Lemma existsb_none {A : Type} (f : A -> bool) (l : list A) :
  Forall (fun a => f a = false) l -> existsb f l = false.
Proof.
  induction 1 as [|a l Ha _ IH]; simpl; [reflexivity|].
  now rewrite Ha, IH.
Qed.

Lemma Forall_of_forallb {A : Type} (p : A -> bool) (P : A -> Prop) (l : list A) :
  (forall a, p a = true -> P a) -> forallb p l = true -> Forall P l.
Proof.
  intros HpP H. apply Forall_forall. intros a Ha.
  rewrite forallb_forall in H. auto.
Qed.

Lemma name_below_128 ch : nameChar ch = true -> ch < 123.
Proof.
  unfold nameChar, isLower, isUpper, isDigit, isHyphen. intros H.
  repeat (apply orb_true_iff in H; destruct H as [H|H]);
    try (apply andb_true_iff in H; destruct H as [_ H]; apply N.leb_le in H; lia).
  apply N.eqb_eq in H. lia.
Qed.

(** With the [i] flag the class [[a-z0-9\-]] holds the letters of both
    cases, the digits and the hyphen. *)
Lemma inSet_name ch : inSet true nameSet ch = nameChar ch.
Proof.
  destruct (N.lt_ge_cases ch 128) as [Hlo|Hhi].
  - revert ch Hlo. apply below_128_table. vm_compute. reflexivity.
  - transitivity false.
    + unfold inSet. apply existsb_none.
      apply Forall_of_forallb with (p := fun a => a <? 128).
      * intros a Ha. apply N.ltb_lt in Ha.
        rewrite (Canonicalize_high true _ Hhi).
        pose proof (Canonicalize_low true _ Ha).
        apply N.eqb_neq. lia.
      * vm_compute. reflexivity.
    + symmetry. destruct (nameChar ch) eqn:E; [|reflexivity].
      apply name_below_128 in E. lia.
Qed.

(** The [i] flag does not change [\s]. *)
Lemma inSet_space ch : inSet true WhiteSpace ch = isWhiteSpace ch.
Proof.
  destruct (N.lt_ge_cases ch 128) as [Hlo|Hhi].
  - revert ch Hlo. apply below_128_table. vm_compute. reflexivity.
  - unfold isWhiteSpace, inSet. apply existsb_agree.
    apply Forall_of_forallb
      with (p := fun a => Canonicalize true a =? Canonicalize false a).
    + intros a Ha. apply N.eqb_eq in Ha. rewrite Ha.
      now rewrite !(Canonicalize_high _ _ Hhi).
    + vm_compute. reflexivity.
Qed.

Lemma inSet_single c ch :
  c < 128 -> Canonicalize true c = c ->
  (forall k, k < 128 -> inSet true [(c, c)] k = (k =? c)) ->
  inSet true [(c, c)] ch = (ch =? c).
Proof.
  intros Hc Hcan Htab.
  destruct (N.lt_ge_cases ch 128) as [Hlo|Hhi]; [now apply Htab|].
  unfold inSet, elements, rangeElements. simpl.
  replace (N.to_nat (c + 1 - c)) with 1%nat by lia. simpl.
  rewrite N.add_0_r, orb_false_r, Hcan, (Canonicalize_high true _ Hhi).
  apply N.eqb_sym.
Qed.

Lemma inSet_lbrace ch : inSet true [(123, 123)] ch = (ch =? 123).
Proof.
  apply inSet_single; [lia|reflexivity|].
  apply below_128_table. vm_compute. reflexivity.
Qed.

Lemma inSet_rbrace ch : inSet true [(125, 125)] ch = (ch =? 125).
Proof.
  apply inSet_single; [lia|reflexivity|].
  apply below_128_table. vm_compute. reflexivity.
Qed.

(** The three kinds of character the pattern tells apart are disjoint. *)
Lemma space_not_name ch : isWhiteSpace ch = true -> nameChar ch = false.
Proof.
  destruct (N.lt_ge_cases ch 128) as [Hlo|Hhi].
  - revert ch Hlo.
    assert (H : forall ch, ch < 128 ->
              (negb (isWhiteSpace ch) || negb (nameChar ch)) = true).
    { apply below_128_table with (g := fun _ => true). vm_compute. reflexivity. }
    intros ch Hlo Hs. specialize (H ch Hlo). rewrite Hs in H. simpl in H.
    now destruct (nameChar ch).
  - intros _. rewrite <- inSet_name. unfold inSet. apply existsb_none.
    apply Forall_of_forallb with (p := fun a => a <? 128).
    + intros a Ha. apply N.ltb_lt in Ha.
      rewrite (Canonicalize_high true _ Hhi).
      pose proof (Canonicalize_low true _ Ha).
      apply N.eqb_neq. lia.
    + vm_compute. reflexivity.
Qed.

Lemma name_not_space ch : nameChar ch = true -> isWhiteSpace ch = false.
Proof.
  intros H. destruct (isWhiteSpace ch) eqn:E; [|reflexivity].
  apply space_not_name in E. congruence.
Qed.

Lemma name_not_rbrace ch : nameChar ch = true -> (ch =? 125) = false.
Proof. intros H. apply name_below_128 in H. apply N.eqb_neq. lia. Qed.

Lemma name_not_lbrace ch : nameChar ch = true -> (ch =? 123) = false.
Proof. intros H. apply name_below_128 in H. apply N.eqb_neq. lia. Qed.

Lemma space_not_rbrace ch : isWhiteSpace ch = true -> (ch =? 125) = false.
Proof.
  intros H. destruct (ch =? 125) eqn:E; [|reflexivity].
  apply N.eqb_eq in E. subst ch. vm_compute in H. discriminate.
Qed.

Lemma space_not_lbrace ch : isWhiteSpace ch = true -> (ch =? 123) = false.
Proof.
  intros H. destruct (ch =? 123) eqn:E; [|reflexivity].
  apply N.eqb_eq in E. subst ch. vm_compute in H. discriminate.
Qed.

Lemma lowerNameChar_nameChar ch : lowerNameChar ch = true -> nameChar ch = true.
Proof.
  unfold lowerNameChar, nameChar. intros H.
  repeat (apply orb_true_iff in H; destruct H as [H|H]); rewrite H;
    now rewrite ?orb_true_r.
Qed.

End CharSetFacts.

(** ** The matcher of [slotNamePattern] scans without backtracking *)

Module MatcherFacts.

Import CharSetFacts.

Lemma dropWhile_agree (p q : CodeUnit -> bool) s :
  (forall ch, p ch = q ch) -> dropWhile p s = dropWhile q s.
Proof.
  intros H. induction s as [|ch s IH]; simpl; [reflexivity|].
  now rewrite H, IH.
Qed.

Lemma dropWhile_length p s : length (dropWhile p s) <= length s.
Proof.
  induction s as [|ch s IH]; simpl; [lia|].
  destruct (p ch); simpl; lia.
Qed.

Lemma take_drop_while p s : takeWhile p s ++ dropWhile p s = s.
Proof.
  induction s as [|ch s IH]; simpl; [reflexivity|].
  destruct (p ch); simpl; [now rewrite IH|reflexivity].
Qed.

Lemma takeWhile_all p s : forallb p (takeWhile p s) = true.
Proof.
  induction s as [|ch s IH]; simpl; [reflexivity|].
  destruct (p ch) eqn:E; simpl; [now rewrite E|reflexivity].
Qed.

Lemma takeWhile_consumed p s :
  firstn (length s - length (dropWhile p s)) s = takeWhile p s.
Proof.
  rewrite <- (take_drop_while p s) at 1 3.
  rewrite length_app, Nat.add_sub.
  now rewrite firstn_app, Nat.sub_diag, firstn_all, firstn_O, app_nil_r.
Qed.

(** A greedy [A*] whose continuation refuses a state that still starts in
    [A] has nothing to backtrack to: it skips the longest run. *)
Lemma RepeatMatcher_star ic A (c : Continuation) :
  (forall ch tl cap, inSet ic A ch = true -> c (mkState (ch :: tl) cap) = None) ->
  forall s cap fuel,
    length s < fuel ->
    RepeatMatcher (CharacterSetMatcher ic A) 0 fuel (mkState s cap) c
    = c (mkState (dropWhile (inSet ic A) s) cap).
Proof.
  intros Hrej s. induction s as [|ch s IH]; intros cap fuel Hfuel;
    (destruct fuel as [|fuel]; [simpl in Hfuel; lia|]); simpl.
  - reflexivity.
  - unfold CharacterSetMatcher at 1. simpl.
    destruct (inSet ic A ch) eqn:E; [|reflexivity].
    replace (length s =? S (length s)) with false
      by (symmetry; apply Nat.eqb_neq; lia).
    rewrite IH by (simpl in Hfuel; lia).
    destruct (c (mkState (dropWhile (inSet ic A) s) cap)) eqn:Ec; [reflexivity|].
    now apply Hrej.
Qed.

(** [A+] under the same condition. *)
Lemma RepeatMatcher_plus ic A (c : Continuation) :
  (forall ch tl cap, inSet ic A ch = true -> c (mkState (ch :: tl) cap) = None) ->
  forall s cap fuel,
    S (length s) < fuel ->
    RepeatMatcher (CharacterSetMatcher ic A) 1 fuel (mkState s cap) c
    = match s with
      | ch :: tl =>
          if inSet ic A ch
          then c (mkState (dropWhile (inSet ic A) tl) cap)
          else None
      | [] => None
      end.
Proof.
  intros Hrej s cap fuel Hfuel.
  destruct fuel as [|fuel]; [lia|]. simpl.
  unfold CharacterSetMatcher at 1. simpl.
  destruct s as [|ch tl]; [reflexivity|].
  destruct (inSet ic A ch); [|reflexivity].
  apply RepeatMatcher_star; [assumption|simpl in *; lia].
Qed.

Lemma closeBrace_eq s cap :
  closeBrace (mkState s cap)
  = match s with
    | ch :: tl => if (ch =? 125)%N then Some (mkState tl cap) else None
    | [] => None
    end.
Proof.
  unfold closeBrace. simpl. unfold CharacterSetMatcher. simpl.
  destruct s as [|ch tl]; [reflexivity|]. now rewrite inSet_rbrace.
Qed.

Lemma trailer_eq s cap :
  trailer (mkState s cap) = closeBrace (mkState (dropWhile isWhiteSpace s) cap).
Proof.
  unfold trailer. cbn [compile rest].
  rewrite RepeatMatcher_star with (c := closeBrace).
  - f_equal. f_equal. apply dropWhile_agree, inSet_space.
  - intros ch tl cap' H. rewrite closeBrace_eq.
    rewrite inSet_space in H. now rewrite (space_not_rbrace _ H).
  - lia.
Qed.

Lemma trailer_rejects_name ch tl cap :
  nameChar ch = true -> trailer (mkState (ch :: tl) cap) = None.
Proof.
  intros H. rewrite trailer_eq. simpl.
  rewrite (name_not_space _ H), closeBrace_eq.
  now rewrite (name_not_rbrace _ H).
Qed.

Lemma nameAndTrailer_eq s cap :
  nameAndTrailer (mkState s cap)
  = match takeWhile nameChar s with
    | [] => None
    | name => trailer (mkState (dropWhile nameChar s) (Some name))
    end.
Proof.
  unfold nameAndTrailer. cbn [compile rest].
  rewrite RepeatMatcher_plus
    with (c := fun y => trailer (mkState (rest y)
                                         (Some (consumed (mkState s cap) y)))).
  - destruct s as [|ch tl]; [reflexivity|]. simpl takeWhile.
    rewrite inSet_name. destruct (nameChar ch) eqn:E; [|reflexivity].
    cbn [rest]. unfold consumed. cbn [rest].
    rewrite (dropWhile_agree _ nameChar tl inSet_name).
    replace (dropWhile nameChar tl) with (dropWhile nameChar (ch :: tl))
      by (simpl; now rewrite E).
    rewrite takeWhile_consumed. simpl. now rewrite E.
  - intros ch tl cap' H. cbn [rest]. apply trailer_rejects_name.
    now rewrite <- inSet_name.
  - lia.
Qed.

Lemma nameAndTrailer_rejects_space ch tl cap :
  isWhiteSpace ch = true -> nameAndTrailer (mkState (ch :: tl) cap) = None.
Proof.
  intros H. rewrite nameAndTrailer_eq. simpl.
  now rewrite (space_not_name _ H).
Qed.

(** The matcher of the pattern is the scanner. *)
Lemma slotMatcher_scan s :
  slotMatcher (mkState s None) (fun y => Some y)
  = match scanSlot nameChar s with
    | Some (name, s') => Some (mkState s' (Some name))
    | None => None
    end.
Proof.
  unfold slotMatcher. cbn [ignoreCase source slotNamePattern compile].
  unfold CharacterSetMatcher at 1. cbn [rest capture1].
  destruct s as [|ch s1]; [reflexivity|].
  rewrite inSet_lbrace. unfold scanSlot.
  destruct (ch =? 123)%N; [|reflexivity].
  cbn [rest].
  rewrite RepeatMatcher_star with (c := nameAndTrailer).
  - rewrite (dropWhile_agree _ isWhiteSpace s1 inSet_space).
    rewrite nameAndTrailer_eq.
    destruct (takeWhile nameChar (dropWhile isWhiteSpace s1)) as [|n0 name];
      [reflexivity|].
    rewrite trailer_eq, closeBrace_eq.
    destruct (dropWhile isWhiteSpace (dropWhile nameChar (dropWhile isWhiteSpace s1)))
      as [|ch' s5]; [reflexivity|].
    now destruct (ch' =? 125)%N.
  - intros ch' tl cap H. apply nameAndTrailer_rejects_space.
    now rewrite <- inSet_space.
  - lia.
Qed.

End MatcherFacts.

(** ** The scanner and the declarative syntax agree *)

Module SlotSyntaxFacts.

Import CharSetFacts MatcherFacts.

Lemma dropWhile_app_all q a b :
  forallb q a = true -> dropWhile q (a ++ b) = dropWhile q b.
Proof.
  induction a as [|ch a IH]; simpl; [reflexivity|].
  intros H. apply andb_true_iff in H. destruct H as [H1 H2].
  rewrite H1. auto.
Qed.

Lemma takeWhile_app_all q a b :
  forallb q a = true -> takeWhile q (a ++ b) = a ++ takeWhile q b.
Proof.
  induction a as [|ch a IH]; simpl; [reflexivity|].
  intros H. apply andb_true_iff in H. destruct H as [H1 H2].
  rewrite H1. f_equal. auto.
Qed.

Lemma scanSlot_sound p s name s' :
  scanSlot p s = Some (name, s') ->
  exists w, slotText p w name /\ s = w ++ s'.
Proof.
  unfold scanSlot. destruct s as [|ch s1]; [discriminate|].
  destruct (ch =? 123)%N eqn:Ech; [|discriminate].
  apply N.eqb_eq in Ech. subst ch.
  set (s2 := dropWhile isWhiteSpace s1).
  destruct (takeWhile p s2) as [|n0 nm] eqn:Ename; [discriminate|].
  set (s3 := dropWhile p s2).
  destruct (dropWhile isWhiteSpace s3) as [|ch' s5] eqn:E5; [discriminate|].
  destruct (ch' =? 125)%N eqn:Ech'; [|discriminate].
  apply N.eqb_eq in Ech'. subst ch'.
  intros H. injection H as <- <-.
  exists (123%N :: takeWhile isWhiteSpace s1 ++ (n0 :: nm)
                ++ takeWhile isWhiteSpace s3 ++ [125%N]).
  split.
  - exists (takeWhile isWhiteSpace s1), (takeWhile isWhiteSpace s3).
    repeat split.
    + apply takeWhile_all.
    + discriminate.
    + rewrite <- Ename. apply takeWhile_all.
    + apply takeWhile_all.
  - simpl. f_equal.
    rewrite <- (take_drop_while isWhiteSpace s1) at 1. fold s2.
    rewrite <- app_assoc. f_equal.
    rewrite <- (take_drop_while p s2) at 1. fold s3. rewrite Ename.
    simpl. f_equal. rewrite <- !app_assoc. f_equal.
    rewrite <- (take_drop_while isWhiteSpace s3) at 1. rewrite E5.
    reflexivity.
Qed.

Section Complete.

Variable p : CodeUnit -> bool.
Hypothesis p_not_space : forall ch, p ch = true -> isWhiteSpace ch = false.
Hypothesis p_not_rbrace : p 125%N = false.

Lemma scanSlot_complete w name s' :
  slotText p w name -> scanSlot p (w ++ s') = Some (name, s').
Proof.
  intros (ws1 & ws2 & -> & Hws1 & Hne & Hname & Hws2).
  destruct name as [|n0 nm]; [congruence|].
  simpl in Hname. apply andb_true_iff in Hname. destruct Hname as [Hn0 Hnm].
  unfold scanSlot. simpl.
  rewrite <- !app_assoc.
  rewrite (dropWhile_app_all _ _ _ Hws1). simpl.
  rewrite (p_not_space _ Hn0). simpl. rewrite Hn0.
  rewrite <- !app_assoc.
  rewrite (takeWhile_app_all _ _ _ Hnm), (dropWhile_app_all _ _ _ Hnm).
  assert (Htail : forall q, (forall ch, q ch = true -> isWhiteSpace ch = false) ->
                            q 125%N = false ->
                            takeWhile q (ws2 ++ [125%N] ++ s') = []).
  { intros q Hq Hq'. destruct ws2 as [|c ws2]; simpl.
    - now rewrite Hq'.
    - simpl in Hws2. apply andb_true_iff in Hws2. destruct Hws2 as [Hc _].
      destruct (q c) eqn:E; [|reflexivity].
      apply Hq in E. congruence. }
  rewrite (Htail p p_not_space p_not_rbrace), app_nil_r.
  assert (Hdrop : dropWhile p (ws2 ++ [125%N] ++ s') = ws2 ++ [125%N] ++ s').
  { rewrite <- (take_drop_while p (ws2 ++ [125%N] ++ s')) at 2.
    now rewrite (Htail p p_not_space p_not_rbrace). }
  rewrite Hdrop, (dropWhile_app_all _ _ _ Hws2). simpl.
  reflexivity.
Qed.

End Complete.

Lemma lowerNameChar_not_space ch :
  lowerNameChar ch = true -> isWhiteSpace ch = false.
Proof. intros H. now apply name_not_space, lowerNameChar_nameChar. Qed.

Lemma slotText_length p w name : slotText p w name -> 2 < length w.
Proof.
  intros (ws1 & ws2 & -> & _ & Hne & _ & _).
  destruct name; [congruence|].
  simpl. repeat (rewrite length_app; simpl). lia.
Qed.

(** A placeholder has its only opening brace in front. *)
Lemma slotText_one_lbrace w name n :
  slotText nameChar w name -> nth_error w (S n) <> Some 123%N.
Proof.
  intros (ws1 & ws2 & -> & Hws1 & _ & Hname & Hws2) Hn. simpl in Hn.
  apply nth_error_In in Hn.
  rewrite forallb_forall in Hws1, Hname, Hws2.
  repeat (apply in_app_or in Hn; destruct Hn as [Hn|Hn]).
  - apply Hws1, space_not_lbrace in Hn. discriminate.
  - apply Hname, name_not_lbrace in Hn. discriminate.
  - apply Hws2, space_not_lbrace in Hn. discriminate.
  - destruct Hn as [Hn|[]]. discriminate.
Qed.

Lemma slotText_head p w name : slotText p w name -> nth_error w 0 = Some 123%N.
Proof. now intros (ws1 & ws2 & -> & _). Qed.

Lemma search_findSlot i s :
  search slotMatcher i s
  = match findSlot nameChar i s with
    | Some (j, name, s') => Some (j, mkState s' (Some name))
    | None => None
    end.
Proof.
  revert i. induction s as [|ch s IH]; intros i; cbn [search findSlot].
  - rewrite slotMatcher_scan. now destruct (scanSlot nameChar []) as [[? ?]|].
  - rewrite slotMatcher_scan.
    destruct (scanSlot nameChar (ch :: s)) as [[? ?]|]; [reflexivity|].
    apply IH.
Qed.

Lemma findSlot_some p i s j name s' :
  findSlot p i s = Some (j, name, s') ->
  exists pre w,
    s = pre ++ w ++ s' /\ j = i + length pre /\ slotText p w name /\
    forall k, k < length pre -> scanSlot p (skipn k s) = None.
Proof.
  revert i. induction s as [|ch s IH]; intros i; cbn [findSlot].
  - destruct (scanSlot p []) as [[? ?]|] eqn:E; [|discriminate].
    unfold scanSlot in E. discriminate.
  - destruct (scanSlot p (ch :: s)) as [[nm r]|] eqn:E.
    + intros H. injection H as <- <- <-.
      apply scanSlot_sound in E. destruct E as (w & Hw & Hs).
      exists [], w. simpl. repeat split; auto; lia.
    + intros H. apply IH in H.
      destruct H as (pre & w & Hs & Hj & Hw & Hnone).
      exists (ch :: pre), w. simpl. repeat split.
      * now rewrite Hs.
      * lia.
      * assumption.
      * intros [|k] Hk; simpl; [assumption|]. apply Hnone. lia.
Qed.

Lemma findSlot_none p i s :
  findSlot p i s = None -> forall k, scanSlot p (skipn k s) = None.
Proof.
  revert i. induction s as [|ch s IH]; intros i; cbn [findSlot].
  - intros _ k. now rewrite skipn_nil.
  - destruct (scanSlot p (ch :: s)) as [[nm r]|] eqn:E; [discriminate|].
    intros H [|k]; simpl; [assumption|]. now apply (IH (S i)).
Qed.

End SlotSyntaxFacts.

(** ** [exec] on the pattern object *)

Module ExecFacts.

Import CharSetFacts MatcherFacts SlotSyntaxFacts.

Lemma substring_slice s a b :
  a <= b -> b <= length s -> substring s a b = slice s a b.
Proof.
  intros Hab Hb. unfold substring, slice.
  rewrite (Nat.min_l a), (Nat.min_l b) by lia.
  now rewrite Nat.min_l, Nat.max_r by lia.
Qed.

Lemma substring_same s a : substring s a a = [].
Proof.
  unfold substring. rewrite Nat.min_id, Nat.max_id, Nat.sub_diag.
  apply firstn_O.
Qed.

Lemma substringFrom_skipn s a : a <= length s -> substringFrom s a = skipn a s.
Proof.
  intros Ha. unfold substringFrom. rewrite substring_slice by lia.
  unfold slice. apply firstn_all2. rewrite length_skipn. lia.
Qed.

Lemma slice_middle (pre w post : JSString) :
  slice (pre ++ w ++ post) (length pre) (length pre + length w) = w.
Proof.
  unfold slice. rewrite skipn_app, skipn_all, Nat.sub_diag. simpl.
  replace (length pre + length w - length pre) with (length w) by lia.
  now rewrite firstn_app, Nat.sub_diag, firstn_all, firstn_O, app_nil_r.
Qed.

Lemma slice_prefix (pre r : JSString) li :
  li <= length pre -> slice (pre ++ r) li (length pre) = skipn li pre.
Proof.
  intros Hli. unfold slice. rewrite skipn_app.
  replace (li - length pre) with 0 by lia. simpl.
  rewrite firstn_app, length_skipn, Nat.sub_diag, firstn_O, app_nil_r.
  apply firstn_all2. rewrite length_skipn. lia.
Qed.

Lemma skipn_middle (pre w post : JSString) :
  skipn (length pre + length w) (pre ++ w ++ post) = post.
Proof.
  rewrite app_assoc, skipn_app, skipn_all2 by (rewrite length_app; lia).
  rewrite length_app, Nat.sub_diag. reflexivity.
Qed.

Lemma skipn_prefix li (pre r : JSString) :
  li <= length pre -> skipn li (pre ++ r) = skipn li pre ++ r.
Proof.
  intros Hli. rewrite skipn_app.
  now replace (li - length pre) with 0 by lia.
Qed.

Lemma exec_atIndex li t :
  li <= length t ->
  exec (atIndex li) t
  = match findSlot nameChar li (skipn li t) with
    | Some (j, name, s') =>
        (Some (mkMatch j (slice t j (length t - length s')) (Some name)),
         atIndex (length t - length s'))
    | None => (None, atIndex 0)
    end.
Proof.
  intros Hli. unfold exec. cbn [global ignoreCase source lastIndex atIndex].
  replace (length t <? li) with false by (symmetry; apply Nat.ltb_ge; lia).
  fold slotMatcher. change (compile true (source slotNamePattern)) with slotMatcher.
  rewrite search_findSlot.
  now destruct (findSlot nameChar li (skipn li t)) as [[[j name] s']|].
Qed.

(** A match: the input splits around the matched text, nothing matches
    between the scan position and the match, and the scan position moves to
    the end of the match. *)
Lemma exec_some li t m re' :
  li <= length t ->
  exec (atIndex li) t = (Some m, re') ->
  exists pre w name post,
    t = pre ++ w ++ post /\ li <= length pre /\
    m = mkMatch (length pre) w (Some name) /\
    slotText nameChar w name /\
    re' = atIndex (length pre + length w) /\
    forall k, li <= k < length pre -> scanSlot nameChar (skipn k t) = None.
Proof.
  intros Hli. rewrite exec_atIndex by assumption.
  destruct (findSlot nameChar li (skipn li t)) as [[[j name] s']|] eqn:E;
    [|discriminate].
  apply findSlot_some in E. destruct E as (pre' & w & Hs & Hj & Hw & Hnone).
  intros H. injection H as <- <-.
  assert (Ht : t = (firstn li t ++ pre') ++ w ++ s').
  { rewrite <- app_assoc, <- Hs. symmetry. apply firstn_skipn. }
  assert (Hlen : length (firstn li t ++ pre') = j).
  { rewrite length_app, length_firstn. lia. }
  assert (He : length t - length s' = j + length w).
  { rewrite Ht at 1. rewrite !length_app in *. lia. }
  exists (firstn li t ++ pre'), w, name, s'.
  rewrite Hlen, He. repeat split; try assumption; try lia.
  - f_equal. rewrite Ht at 1. rewrite <- Hlen. apply slice_middle.
  - intros k Hk.
    replace k with (li + (k - li)) by lia.
    rewrite Nat.add_comm, <- skipn_skipn. apply Hnone. lia.
Qed.

(** No match: the scan position is reset and nothing matches from it on. *)
Lemma exec_none li t re' :
  li <= length t ->
  exec (atIndex li) t = (None, re') ->
  re' = atIndex 0 /\
  forall k, li <= k -> scanSlot nameChar (skipn k t) = None.
Proof.
  intros Hli. rewrite exec_atIndex by assumption.
  destruct (findSlot nameChar li (skipn li t)) as [[[j name] s']|] eqn:E;
    [discriminate|].
  intros H. injection H as <-. split; [reflexivity|].
  intros k Hk. replace k with (li + (k - li)) by lia.
  rewrite Nat.add_comm, <- skipn_skipn. now apply findSlot_none with (i := li).
Qed.

Lemma exec_beyond li t :
  length t < li -> exec (atIndex li) t = (None, atIndex 0).
Proof.
  intros H. unfold exec. cbn [global lastIndex atIndex].
  now replace (length t <? li) with true by (symmetry; apply Nat.ltb_lt; lia).
Qed.

End ExecFacts.

(** ** The render loop *)

Module RenderFacts.

Import CharSetFacts MatcherFacts SlotSyntaxFacts ExecFacts.

Section Loop.

Variable VNode : Type.
Variable slots : Slots VNode.
Variable t : JSString.

(** The loop ends: it runs over the matches the scan returns, up to the
    first slot value that raises. *)
Lemma renderLoop_weave fuel :
  forall li last acc,
    li <= length t -> length t - li < fuel ->
    renderLoop fuel slots t (atIndex li) last acc
    = Some (weave slots t last (execAll fuel (atIndex li) t) acc).
Proof.
  induction fuel as [|fuel IH]; intros li last acc Hli Hfuel; [lia|].
  cbn [renderLoop execAll].
  destruct (exec (atIndex li) t) as [[m|] re'] eqn:E.
  - destruct (exec_some _ _ _ _ Hli E)
      as (pre & w & name & post & Ht & Hpre & -> & Hw & -> & _).
    pose proof (slotText_length _ _ _ Hw) as Hlen.
    assert (Hend : length pre + length w <= length t).
    { rewrite Ht, !length_app. lia. }
    cbn [weave index matched group1 propertyKey RegExp.lastIndex atIndex].
    unfold endIndex. cbn [index matched].
    destruct (getSlot slots name) as [slot|]; [destruct (slot tt)|];
      try reflexivity; now rewrite IH by lia.
  - destruct (exec_none _ _ _ Hli E) as [-> _]. reflexivity.
Qed.

(** One render from any scan position. *)
Lemma setup_weave li :
  setup t slots (atIndex li)
  = Some (weave slots t 0 (execAll (1 + length t) (atIndex li) t) []).
Proof.
  unfold setup. destruct (Nat.le_gt_cases li (length t)) as [Hli|Hli].
  - apply renderLoop_weave; lia.
  - cbn [Nat.add renderLoop execAll]. now rewrite exec_beyond.
Qed.

Lemma weave_fill ms :
  forall last acc,
    fst (weave slots t last ms acc)
    = match fillAll slots (segmentsFrom t last ms) with
      | Pushes out => Rendered (acc ++ out)
      | Raises => Aborted
      end.
Proof.
  induction ms as [|m ms IH]; intros last acc;
    cbn [weave segmentsFrom fillAll fill]; [reflexivity|].
  destruct (getSlot slots (propertyKey (group1 m))) as [slot|].
  - destruct (slot tt) as [items|]; [|reflexivity].
    rewrite IH.
    destruct (fillAll slots (segmentsFrom t (endIndex m) ms)); [|reflexivity].
    cbn [app]. now rewrite <- !app_assoc.
  - rewrite IH.
    destruct (fillAll slots (segmentsFrom t (endIndex m) ms)); [|reflexivity].
    cbn [app]. now rewrite <- !app_assoc.
Qed.

(** A loop that returns leaves the scan position at 0. *)
Lemma weave_rendered ms :
  forall last acc out re',
    weave slots t last ms acc = (Rendered out, re') -> re' = atIndex 0.
Proof.
  induction ms as [|m ms IH]; intros last acc out re' H; cbn [weave] in H.
  - now injection H as _ <-.
  - destruct (getSlot slots (propertyKey (group1 m))) as [slot|];
      [destruct (slot tt)|]; try discriminate; eapply IH; eassumption.
Qed.

(** A loop that is left was left at a match whose slot value raises, with
    the scan position behind that match. *)
Lemma weave_aborted ms :
  forall last acc re',
    weave slots t last ms acc = (Aborted, re') ->
    exists m slot,
      In m ms /\ getSlot slots (propertyKey (group1 m)) = Some slot /\
      slot tt = Raises /\ re' = atIndex (endIndex m).
Proof.
  induction ms as [|m ms IH]; intros last acc re' H; cbn [weave] in H;
    [discriminate|].
  destruct (getSlot slots (propertyKey (group1 m))) as [slot|] eqn:Eslot.
  - destruct (slot tt) as [items|] eqn:Ecall.
    + apply IH in H. destruct H as (m' & slot' & Hin & H).
      exists m', slot'. split; [now right|assumption].
    + injection H as <-. exists m, slot. repeat split; auto. now left.
  - apply IH in H. destruct H as (m' & slot' & Hin & H).
    exists m', slot'. split; [now right|assumption].
Qed.

Lemma setup_fill :
  option_map fst (setup t slots slotNamePattern)
  = Some (completion (fillAll slots (segments t))).
Proof.
  change slotNamePattern with (atIndex 0). rewrite setup_weave.
  cbn [option_map]. rewrite weave_fill. unfold segments, placeholders.
  change slotNamePattern with (atIndex 0).
  now destruct (fillAll slots (segmentsFrom t 0 (execAll (1 + length t) (atIndex 0) t))).
Qed.

Lemma setup_rendered li out re' :
  setup t slots (atIndex li) = Some (Rendered out, re') -> re' = slotNamePattern.
Proof.
  rewrite setup_weave. intros H. injection H as H.
  now apply weave_rendered in H.
Qed.

Lemma setup_pushes out :
  fillAll slots (segments t) = Pushes out ->
  setup t slots slotNamePattern = Some (Rendered out, slotNamePattern).
Proof.
  intros Hout. pose proof setup_fill as H. rewrite Hout in H.
  destruct (setup t slots slotNamePattern) as [[c re']|] eqn:E; [|discriminate].
  cbn in H. injection H as ->.
  change slotNamePattern with (atIndex 0) in E.
  now rewrite (setup_rendered _ _ _ E).
Qed.

Lemma setup_raises :
  fillAll slots (segments t) = Raises ->
  exists re', setup t slots slotNamePattern = Some (Aborted, re').
Proof.
  intros Hout. pose proof setup_fill as H. rewrite Hout in H.
  destruct (setup t slots slotNamePattern) as [[c re']|] eqn:E; [|discriminate].
  cbn in H. injection H as ->. now exists re'.
Qed.

End Loop.

(** Segments whose names the [slots] object does not answer contribute
    their own text. *)
Lemma fillAll_unanswered (VNode : Type) (slots : Slots VNode) (segs : list Segment) :
  (forall name w, In (SlotReference name w) segs -> getSlot slots name = None) ->
  fillAll slots segs = Pushes (map (fun seg => Text (segmentText seg)) segs).
Proof.
  induction segs as [|seg segs IH]; intros H; [reflexivity|].
  cbn [fillAll map]. rewrite IH by (intros name w Hin; apply (H name w); now right).
  destruct seg as [text|name w]; cbn [fill segmentText]; [reflexivity|].
  now rewrite (H name w) by now left.
Qed.

Lemma reconstruct_from t fuel :
  forall li,
    li <= length t -> length t - li < fuel ->
    reconstruct (segmentsFrom t li (execAll fuel (atIndex li) t)) = skipn li t.
Proof.
  induction fuel as [|fuel IH]; intros li Hli Hfuel; [lia|].
  cbn [execAll].
  destruct (exec (atIndex li) t) as [[m|] re'] eqn:E.
  - destruct (exec_some _ _ _ _ Hli E)
      as (pre & w & name & post & Ht & Hpre & -> & Hw & -> & _).
    pose proof (slotText_length _ _ _ Hw) as Hlen.
    assert (Hend : length pre + length w <= length t).
    { rewrite Ht, !length_app. lia. }
    cbn [segmentsFrom]. unfold reconstruct. cbn [flat_map segmentText].
    fold (reconstruct (segmentsFrom t (endIndex (mkMatch (length pre) w (Some name)))
                                    (execAll fuel (atIndex (length pre + length w)) t))).
    unfold endIndex. cbn [index matched].
    rewrite IH by lia.
    rewrite substring_slice by lia.
    rewrite Ht, slice_prefix, skipn_middle, skipn_prefix by assumption.
    reflexivity.
  - cbn [segmentsFrom]. unfold reconstruct. cbn [flat_map segmentText].
    rewrite app_nil_r. now apply substringFrom_skipn.
Qed.

Lemma reconstruct_segments t : reconstruct (segments t) = t.
Proof.
  unfold segments, placeholders.
  change slotNamePattern with (atIndex 0).
  now rewrite reconstruct_from by lia.
Qed.

End RenderFacts.

(** ** Which substrings are placeholders *)

Module RecognitionFacts.

Import CharSetFacts MatcherFacts SlotSyntaxFacts ExecFacts.

Lemma nameChar_not_rbrace : nameChar 125%N = false.
Proof. reflexivity. Qed.

Lemma execAll_sound t fuel :
  forall li m,
    li <= length t ->
    In m (execAll fuel (atIndex li) t) ->
    exists pre w name post,
      t = pre ++ w ++ post /\ m = mkMatch (length pre) w (Some name) /\
      slotText nameChar w name.
Proof.
  induction fuel as [|fuel IH]; intros li m Hli Hin; [destruct Hin|].
  cbn [execAll] in Hin.
  destruct (exec (atIndex li) t) as [[m0|] re'] eqn:E; [|destruct Hin].
  destruct (exec_some _ _ _ _ Hli E)
    as (pre & w & name & post & Ht & Hpre & -> & Hw & -> & _).
  destruct Hin as [<-|Hin].
  - now exists pre, w, name, post.
  - apply IH in Hin; [assumption|]. rewrite Ht, !length_app. lia.
Qed.

(** Placeholders do not overlap, so the scan skips none of them. *)
Lemma execAll_complete pre w name post fuel :
  slotText nameChar w name ->
  forall li,
    li <= length pre ->
    length (pre ++ w ++ post) - li < fuel ->
    In (mkMatch (length pre) w (Some name))
       (execAll fuel (atIndex li) (pre ++ w ++ post)).
Proof.
  intros Hw. remember (pre ++ w ++ post) as t eqn:Htdef.
  assert (Hsk : skipn (length pre) t = w ++ post).
  { rewrite Htdef. now rewrite skipn_app, skipn_all, Nat.sub_diag. }
  assert (Hscan : scanSlot nameChar (skipn (length pre) t) = Some (name, post)).
  { rewrite Hsk.
    apply scanSlot_complete; [apply name_not_space|reflexivity|assumption]. }
  assert (Hhead : nth_error t (length pre) = Some 123%N).
  { rewrite Htdef. rewrite nth_error_app2, Nat.sub_diag by lia.
    rewrite nth_error_app1 by (pose proof (slotText_length _ _ _ Hw); lia).
    now apply slotText_head with (p := nameChar) (name := name). }
  assert (Hlt : length pre + length w <= length t).
  { rewrite Htdef, !length_app. lia. }
  clear Htdef.
  induction fuel as [|fuel IH]; intros li Hli Hfuel; [lia|].
  assert (Hli' : li <= length t) by lia.
  cbn [execAll].
  destruct (exec (atIndex li) t) as [[m|] re'] eqn:E.
  - destruct (exec_some _ _ _ _ Hli' E)
      as (pre1 & w1 & name1 & post1 & Ht & Hpre1 & -> & Hw1 & -> & Hnone).
    pose proof (slotText_length _ _ _ Hw1) as Hlen1.
    assert (Hlen_t : length t = length pre1 + length w1 + length post1).
    { rewrite Ht, !length_app. lia. }
    destruct (Nat.lt_total (length pre1) (length pre)) as [Hlt1|[Heq|Hgt]].
    + right. apply IH; [|lia].
      destruct (Nat.le_gt_cases (length pre1 + length w1) (length pre))
        as [Hle|Hover]; [assumption|exfalso].
      rewrite Ht in Hhead.
      rewrite nth_error_app2 in Hhead by lia.
      rewrite nth_error_app1 in Hhead by lia.
      destruct (length pre - length pre1) as [|n] eqn:En; [lia|].
      now apply (slotText_one_lbrace _ _ n Hw1).
    + left. rewrite Heq.
      assert (Hsk1 : skipn (length pre) t = w1 ++ post1).
      { rewrite <- Heq, Ht. now rewrite skipn_app, skipn_all, Nat.sub_diag. }
      assert (Hscan1 : scanSlot nameChar (skipn (length pre) t) = Some (name1, post1)).
      { rewrite Hsk1.
        apply scanSlot_complete; [apply name_not_space|reflexivity|assumption]. }
      rewrite Hscan in Hscan1. injection Hscan1 as <- <-.
      rewrite Hsk in Hsk1. apply app_inv_tail in Hsk1. now subst w1.
    + rewrite Hnone in Hscan by lia. discriminate.
  - destruct (exec_none _ _ _ Hli' E) as [_ Hnone].
    rewrite Hnone in Hscan by lia. discriminate.
Qed.

Lemma slice_split t i j :
  i <= j -> j <= length t ->
  t = firstn i t ++ slice t i j ++ skipn j t /\ length (firstn i t) = i.
Proof.
  intros Hij Hj. split.
  - unfold slice.
    replace (skipn j t) with (skipn (j - i) (skipn i t))
      by (rewrite skipn_skipn; f_equal; lia).
    now rewrite firstn_skipn, firstn_skipn.
  - rewrite length_firstn. lia.
Qed.

Lemma slice_length t i j : length (slice t i j) <= j - i.
Proof. unfold slice. rewrite length_firstn. lia. Qed.

(** The placeholders of a template are exactly its substrings of the form
    brace, white space, name, white space, brace, the name made of letters
    of either case, digits and hyphens. *)
Lemma recognized_iff t i j :
  recognized t i j <->
  j <= length t /\ exists name, slotText nameChar (slice t i j) name.
Proof.
  unfold recognized, placeholders. change slotNamePattern with (atIndex 0).
  split.
  - intros (m & Hin & Hi & Hj).
    apply execAll_sound in Hin; [|lia].
    destruct Hin as (pre & w & name & post & Ht & -> & Hw).
    unfold endIndex in Hj. cbn [index matched] in Hi, Hj. subst i j.
    split; [rewrite Ht, !length_app; lia|].
    exists name. rewrite Ht, slice_middle. assumption.
  - intros (Hj & name & Hw).
    pose proof (slotText_length _ _ _ Hw) as Hlen.
    pose proof (slice_length t i j) as Hsl.
    destruct (slice_split t i j ltac:(lia) Hj) as [Ht Hpre].
    exists (mkMatch i (slice t i j) (Some name)).
    split; [|split; [reflexivity|]].
    + pose proof (execAll_complete (firstn i t) (slice t i j) name (skipn j t)
                                   (1 + length t) Hw 0) as H.
      rewrite <- Ht, Hpre in H. apply H; lia.
    + unfold endIndex. cbn [index matched].
      unfold slice in *. rewrite length_firstn, length_skipn in *. lia.
Qed.

End RecognitionFacts.

(** ** The shape of the segment sequence *)

Module SegmentFacts.

Import CharSetFacts MatcherFacts SlotSyntaxFacts ExecFacts RenderFacts
       RecognitionFacts.

Lemma literalStartFrom_cons li m ms n :
  literalStartFrom li (m :: ms) (S n) = literalStartFrom (endIndex m) ms n.
Proof. destruct n; reflexivity. Qed.

Lemma segmentsFrom_shape t ms :
  forall li,
    map isLiteral (segmentsFrom t li ms)
    = true :: flat_map (fun _ => [false; true]) ms.
Proof.
  induction ms as [|m ms IH]; intros li; simpl; [reflexivity|].
  now rewrite IH.
Qed.

Lemma segmentsFrom_literals t ms :
  forall li, length (filter isLiteral (segmentsFrom t li ms)) = length ms + 1.
Proof.
  induction ms as [|m ms IH]; intros li; simpl; [reflexivity|].
  now rewrite IH.
Qed.

Lemma segmentsFrom_slot t ms :
  forall li n m,
    nth_error ms n = Some m ->
    nth_error (segmentsFrom t li ms) (2 * n)
    = Some (Literal (substring t (literalStartFrom li ms n) (index m))) /\
    nth_error (segmentsFrom t li ms) (2 * n + 1)
    = Some (SlotReference (propertyKey (group1 m)) (matched m)).
Proof.
  induction ms as [|m0 ms IH]; intros li n m Hn; [now destruct n|].
  destruct n as [|n].
  - injection Hn as <-. split; reflexivity.
  - simpl in Hn. rewrite literalStartFrom_cons.
    replace (2 * S n) with (S (S (2 * n))) by lia.
    replace (S (S (2 * n)) + 1) with (S (S (2 * n + 1))) by lia.
    cbn [segmentsFrom nth_error]. now apply IH.
Qed.

Lemma segmentsFrom_last t ms :
  forall li,
    nth_error (segmentsFrom t li ms) (2 * length ms)
    = Some (Literal (substringFrom t (literalStartFrom li ms (length ms)))).
Proof.
  induction ms as [|m ms IH]; intros li; [reflexivity|].
  cbn [length]. rewrite literalStartFrom_cons.
  replace (2 * S (length ms)) with (S (S (2 * length ms))) by lia.
  cbn [segmentsFrom nth_error]. apply IH.
Qed.

Lemma segmentsFrom_refs t ms :
  forall li name w,
    In (SlotReference name w) (segmentsFrom t li ms) ->
    exists m, In m ms /\ name = propertyKey (group1 m) /\ w = matched m.
Proof.
  induction ms as [|m ms IH]; intros li name w Hin; simpl in Hin.
  - destruct Hin as [Hin|[]]. discriminate.
  - destruct Hin as [Hin|[Hin|Hin]]; [discriminate| |].
    + injection Hin as <- <-. exists m. simpl. auto.
    + apply IH in Hin. destruct Hin as (m' & Hm' & Hname & Hw).
      exists m'. simpl. auto.
Qed.

Lemma segment_refs_are_slots t name w :
  In (SlotReference name w) (segments t) -> slotText nameChar w name.
Proof.
  intros Hin. unfold segments in Hin.
  apply segmentsFrom_refs in Hin. destruct Hin as (m & Hm & -> & ->).
  unfold placeholders in Hm. change slotNamePattern with (atIndex 0) in Hm.
  apply execAll_sound in Hm; [|lia].
  destruct Hm as (pre & w & name & post & _ & -> & Hw). assumption.
Qed.

(** The scan position is real state: a render that starts from a stale
    position gives another sequence. *)
Example stale_position_differs :
  option_map fst (setup (u16 "{a}{b}") (@noSlots Empty_set) (atIndex 3))
  <> option_map fst (setup (u16 "{a}{b}") (@noSlots Empty_set) slotNamePattern).
Proof. vm_compute. discriminate. Qed.

Lemma substringFrom_end t : substringFrom t (length t) = [].
Proof. apply substring_same. Qed.

Lemma segmentsFrom_has_ref t ms :
  forall li m,
    In m ms ->
    In (SlotReference (propertyKey (group1 m)) (matched m)) (segmentsFrom t li ms).
Proof.
  induction ms as [|m0 ms IH]; intros li m Hin; [destruct Hin|].
  cbn [segmentsFrom]. right. destruct Hin as [<-|Hin]; [now left|].
  right. now apply IH.
Qed.

(** A render that starts at scan position 0 is left only at a placeholder
    whose name the [slots] object answers with a value that raises. *)
Lemma setup_aborted (VNode : Type) (slots : Slots VNode) t re' :
  setup t slots slotNamePattern = Some (Aborted, re') ->
  exists name w slot,
    In (SlotReference name w) (segments t) /\
    getSlot slots name = Some slot /\ slot tt = Raises.
Proof.
  change slotNamePattern with (atIndex 0). rewrite setup_weave.
  intros H. injection H as H. apply weave_aborted in H.
  destruct H as (m & slot & Hin & Hslot & Hcall & _).
  exists (propertyKey (group1 m)), (matched m), slot.
  split; [|now split].
  unfold segments, placeholders. now apply segmentsFrom_has_ref.
Qed.

Lemma setup_no_placeholder (VNode : Type) (slots : Slots VNode) t :
  placeholders t = [] ->
  setup t slots slotNamePattern = Some (Rendered [Text t], slotNamePattern).
Proof.
  intros H. apply setup_pushes. unfold segments. rewrite H.
  cbn [segmentsFrom fillAll fill app].
  now rewrite substringFrom_skipn by lia.
Qed.

End SegmentFacts.

(** ** The translation component: main results *)

Import CharSetFacts MatcherFacts SlotSyntaxFacts ExecFacts RenderFacts
       RecognitionFacts SegmentFacts.

(** C1: for every template, the segment sequence reconstructs the
    template: literal text verbatim and each placeholder by its matched
    substring concatenate to the input.  The render function pushes what
    the segments contribute one after the other, and it is left at the first
    placeholder whose slot value raises; when the [slots] object answers
    none of the placeholders' names, the rendered sequence is exactly the
    texts of the segments. *)
Theorem segments_round_trip :
  forall (VNode : Type) (slots : Slots VNode) (t : JSString),
    reconstruct (segments t) = t /\
    option_map fst (setup t slots slotNamePattern)
    = Some (completion (fillAll slots (segments t))) /\
    (forall out,
        fillAll slots (segments t) = Pushes out ->
        setup t slots slotNamePattern = Some (Rendered out, slotNamePattern)) /\
    ((forall name w,
         In (SlotReference name w) (segments t) -> getSlot slots name = None) ->
     setup t slots slotNamePattern
     = Some (Rendered (map (fun seg => Text (segmentText seg)) (segments t)),
             slotNamePattern)).
Proof.
  intros VNode slots t. split; [apply reconstruct_segments|].
  split; [apply setup_fill|]. split; [apply setup_pushes|].
  intros H. apply setup_pushes. now apply fillAll_unanswered.
Qed.

(** C5: a placeholder whose name has no producer does not always render
    as its own text.  Its name is looked up in the [slots] object all the
    same, and the object inherits the members of [Object.prototype].  With
    no slot passed, "{constructor}" is no text of the output: the render is
    left by a TypeError, with the scan position behind the placeholder.
    "{toString}" renders as eighteen elements of one character each, the
    characters of "[object Undefined]".  Apart from the inherited names, a
    placeholder contributes the output of the producer under its name, or
    its own text when there is none, and a render from scan position 0 that
    no slot value leaves returns the contributions in order.  The template
    "Hello {name}, you have {count} items" with producers name -> ["Bob"],
    count -> ["5"] renders as ["Hello ", "Bob", ", you have ", "5",
    " items"]. *)
Theorem inherited_name_not_literal :
  forall (VNode : Type) (slots : Slots VNode) (t : JSString),
    @noSlots VNode (u16 "constructor") = None /\
    @noSlots VNode (u16 "toString") = None /\
    setup (u16 "{constructor}") (@noSlots VNode) slotNamePattern
    = Some (Aborted, atIndex 13) /\
    setup (u16 "{constructor}") (@noSlots VNode) slotNamePattern
    <> Some (Rendered [Text []; Text (u16 "{constructor}"); Text []],
             slotNamePattern) /\
    setup (u16 "{toString}") (@noSlots VNode) slotNamePattern
    = Some (Rendered (Text [] :: characters (u16 "[object Undefined]") ++ [Text []]),
            slotNamePattern) /\
    (forall name w slot,
        slots name = Some slot -> fill slots (SlotReference name w) = slot tt) /\
    (forall name w,
        slots name = None -> objectPrototype (VNode := VNode) name = None ->
        fill slots (SlotReference name w) = Pushes [Text w]) /\
    (forall out,
        fillAll slots (segments t) = Pushes out ->
        setup t slots slotNamePattern = Some (Rendered out, slotNamePattern)) /\
    setup (u16 "Hello {name}, you have {count} items") (@bobSlots VNode)
          slotNamePattern
    = Some (Rendered [Text (u16 "Hello "); Text (u16 "Bob"); Text (u16 ", you have ");
                      Text (u16 "5"); Text (u16 " items")], slotNamePattern).
Proof.
  intros VNode slots t. split; [reflexivity|]. split; [reflexivity|].
  split; [vm_compute; reflexivity|].
  split; [vm_compute; discriminate|].
  split; [vm_compute; reflexivity|].
  split; [intros name w slot H; cbn [fill]; unfold getSlot; now rewrite H|].
  split; [intros name w H1 H2; cbn [fill]; unfold getSlot; now rewrite H1, H2|].
  split; [apply setup_pushes|vm_compute; reflexivity].
Qed.

(** C6, as the code has it: in a render that starts at scan position 0, a
    substring of a template is a placeholder exactly when it is an opening
    brace, optional white space, a non-empty name of letters of either
    case, digits and hyphens, optional white space and a closing brace.
    Only such substrings become slot references and all other text stays in
    the literals.  Braces that form no placeholder raise no error: a render
    is left only at a placeholder, when the value found under its name
    raises, and a template without placeholders renders as itself. *)
Theorem slot_recognized_iff :
  forall (VNode : Type) (slots : Slots VNode) (t : JSString) (i j : nat),
    (recognized t i j <->
     j <= length t /\ exists name, slotText nameChar (slice t i j) name) /\
    (forall name w,
        In (SlotReference name w) (segments t) -> slotText nameChar w name) /\
    reconstruct (segments t) = t /\
    (forall re',
        setup t slots slotNamePattern = Some (Aborted, re') ->
        exists name w slot,
          In (SlotReference name w) (segments t) /\
          slotText nameChar w name /\
          getSlot slots name = Some slot /\ slot tt = Raises) /\
    (placeholders t = [] ->
     setup t slots slotNamePattern = Some (Rendered [Text t], slotNamePattern)).
Proof.
  intros VNode slots t i j. split; [apply recognized_iff|].
  split; [apply segment_refs_are_slots|].
  split; [apply reconstruct_segments|].
  split; [|apply setup_no_placeholder].
  intros re' H. apply setup_aborted in H.
  destruct H as (name & w & slot & Hin & Hslot & Hcall).
  exists name, w, slot. repeat split; try assumption.
  now apply segment_refs_are_slots with (t := t).
Qed.

(** C6 as stated fails: "{Name}" is a placeholder of itself, and its name
    is not made of lower-case letters, digits and hyphens. *)
Lemma slot_lowercase_only_fails :
  ~ (recognized (u16 "{Name}") 0 6 <->
     6 <= length (u16 "{Name}") /\
     exists name, slotText lowerNameChar (slice (u16 "{Name}") 0 6) name).
Proof.
  intros [H _].
  assert (Hrec : recognized (u16 "{Name}") 0 6).
  { exists (mkMatch 0 (u16 "{Name}") (Some (u16 "Name"))).
    split; [vm_compute; left; reflexivity|split; reflexivity]. }
  destruct (H Hrec) as (_ & name & Hw).
  apply scanSlot_complete with (s' := []) in Hw.
  - vm_compute in Hw. discriminate.
  - apply lowerNameChar_not_space.
  - reflexivity.
Qed.

(** C9: two successive renders of one input can differ.  The scan
    position of the shared pattern object is reset by a render that
    returns, whatever position it started from, and not by one that an
    exception leaves.  Three renders of "{a} and {b}" in a row, the first
    with a producer for a that throws, the second and third with no slot
    passed: the first is left with the scan position at 3, the second
    starts there and misses "{a}", the third finds both placeholders.  The
    second and the third are successive renders of one input, and they
    differ. *)
Theorem stale_position_changes_render :
  forall (VNode : Type) (slots : Slots VNode) (input : JSString) (li : nat),
    let t := u16 "{a} and {b}" in
    (forall out re',
        setup input slots (atIndex li) = Some (Rendered out, re') ->
        re' = slotNamePattern) /\
    setup t (@failingSlots VNode) slotNamePattern = Some (Aborted, atIndex 3) /\
    setup t (@noSlots VNode) (atIndex 3)
    = Some (Rendered [Text (u16 "{a} and "); Text (u16 "{b}"); Text []],
            slotNamePattern) /\
    setup t (@noSlots VNode) slotNamePattern
    = Some (Rendered [Text []; Text (u16 "{a}"); Text (u16 " and ");
                      Text (u16 "{b}"); Text []],
            slotNamePattern) /\
    renderAll [(t, @failingSlots VNode); (t, noSlots); (t, noSlots)] slotNamePattern
    = Some ([Aborted;
             Rendered [Text (u16 "{a} and "); Text (u16 "{b}"); Text []];
             Rendered [Text []; Text (u16 "{a}"); Text (u16 " and ");
                       Text (u16 "{b}"); Text []]],
            slotNamePattern).
Proof.
  intros VNode slots input li t.
  split; [intros out re'; apply setup_rendered|].
  repeat split; vm_compute; reflexivity.
Qed.

(** C10, with the example as the code renders it: for a template with [k]
    placeholders the segment sequence is [k + 1] literals interleaved with
    the [k] placeholders, and a render that starts at scan position 0 and
    that no slot value leaves returns their contributions in that order.
    The literal in front of placeholder [n] runs from the end of the
    placeholder before it (or from 0) to the start of placeholder [n], the
    last literal from the end of the last placeholder to the end of the
    input, and a literal of no characters is the empty string.  With no
    placeholder the output is the input as one element.  "{a}{b}" without
    producers renders as ["", "{a}", "", "{b}", ""]. *)
Theorem literals_interleaved :
  forall (VNode : Type) (slots : Slots VNode) (t : JSString),
    let ms := placeholders t in
    let k := length ms in
    (forall out,
        fillAll slots (segments t) = Pushes out ->
        setup t slots slotNamePattern = Some (Rendered out, slotNamePattern)) /\
    (forall out re',
        setup t slots slotNamePattern = Some (Rendered out, re') ->
        fillAll slots (segments t) = Pushes out) /\
    map isLiteral (segments t) = true :: flat_map (fun _ => [false; true]) ms /\
    length (filter isLiteral (segments t)) = k + 1 /\
    (forall n m,
        nth_error ms n = Some m ->
        nth_error (segments t) (2 * n)
        = Some (Literal (substring t (literalStart ms n) (index m))) /\
        nth_error (segments t) (2 * n + 1)
        = Some (SlotReference (propertyKey (group1 m)) (matched m)) /\
        (index m = literalStart ms n ->
         nth_error (segments t) (2 * n) = Some (Literal []))) /\
    nth_error (segments t) (2 * k)
    = Some (Literal (substringFrom t (literalStart ms k))) /\
    (literalStart ms k = length t ->
     nth_error (segments t) (2 * k) = Some (Literal [])) /\
    (k = 0 ->
     setup t slots slotNamePattern = Some (Rendered [Text t], slotNamePattern)) /\
    setup (u16 "{a}{b}") (@noSlots VNode) slotNamePattern
    = Some (Rendered [Text []; Text (u16 "{a}"); Text []; Text (u16 "{b}"); Text []],
            slotNamePattern).
Proof.
  intros VNode slots t ms k.
  assert (Hstart : forall n, literalStartFrom 0 ms n = literalStart ms n)
    by (now destruct n).
  split; [apply setup_pushes|].
  split.
  { intros out re' H. pose proof (setup_fill VNode slots t) as Hfill.
    rewrite H in Hfill. cbn [option_map fst] in Hfill.
    destruct (fillAll slots (segments t)); [|discriminate].
    injection Hfill as ->. reflexivity. }
  assert (Hk0 : k = 0 -> setup t slots slotNamePattern
                         = Some (Rendered [Text t], slotNamePattern)).
  { intros Hk. apply setup_no_placeholder. fold ms. now destruct ms. }
  unfold segments. fold ms.
  split; [apply segmentsFrom_shape|].
  split; [apply segmentsFrom_literals|].
  split.
  { intros n m Hn.
    destruct (segmentsFrom_slot t ms 0 n m Hn) as [Hlit Hslot].
    rewrite Hstart in Hlit.
    repeat split; try assumption.
    intros Heq. rewrite Hlit, Heq. now rewrite substring_same. }
  pose proof (segmentsFrom_last t ms 0) as Hlast.
  rewrite Hstart in Hlast. fold k in Hlast.
  split; [assumption|].
  split; [intros Heq; rewrite Hlast, Heq; now rewrite substringFrom_end|].
  split; [assumption|vm_compute; reflexivity].
Qed.

(** C10 as stated fails on its own example: "{a}{b}" without producers does
    not render as the four elements ["", "{a}", "{b}", ""]. *)
Lemma adjacent_example_fails :
  option_map fst (setup (u16 "{a}{b}") (@noSlots Empty_set) slotNamePattern)
  <> Some (Rendered [Text []; Text (u16 "{a}"); Text (u16 "{b}"); Text []]).
Proof. vm_compute. discriminate. Qed.

(** ** The mixin hooks *)

Module InstallFacts.

Import Install.

Section Hooks.

Variable TOptions : Type.
Variable i18next : I18n.
Variable JSON_parse : JSString -> option BundleValue.

#[local] Abbreviation Hook := (M TOptions).

Lemma bind_getThis {B : Type} (f : ComponentI18nInstance -> Hook B) this :
  bind getThis f this = f this this.
Proof. unfold bind, getThis. now destruct (f this this) as [[r this2] log2]. Qed.

Lemma bind_ret {A B : Type} (a : A) (f : A -> Hook B) this :
  bind (ret a) f this = f a this.
Proof. unfold bind, ret. now destruct (f a this) as [[r this2] log2]. Qed.

Lemma bind_putThis {B : Type} (f : unit -> Hook B) this' this :
  bind (putThis this') f this = f tt this'.
Proof. unfold bind, putThis. now destruct (f tt this') as [[r this2] log2]. Qed.

Lemma bind_set__bundles {B : Type} (f : unit -> Hook B) v this :
  bind (set__bundles v) f this
  = f tt (mkInstance (dollar_options this) v (__translate this)).
Proof.
  unfold set__bundles. unfold bind at 1. rewrite bind_getThis.
  unfold putThis.
  now destruct (f tt (mkInstance (dollar_options this) v (__translate this)))
    as [[r this2] log2].
Qed.

Lemma bind_call {B : Type} (f : unit -> Hook B) c this :
  bind (call c) f this
  = (fst (fst (f tt this)), snd (fst (f tt this)), c :: snd (f tt this)).
Proof. unfold bind, call. now destruct (f tt this) as [[r this2] log2]. Qed.

(** A hook that returns has run both halves of a sequence. *)
Lemma bind_returned {A B : Type} (m : Hook A) (f : A -> Hook B) this b this2 log :
  bind m f this = (Returned b, this2, log) ->
  exists a this1 log1 log2,
    m this = (Returned a, this1, log1) /\
    f a this1 = (Returned b, this2, log2) /\
    log = log1 ++ log2.
Proof.
  unfold bind. destruct (m this) as [[[a|e] this1] log1]; [|discriminate].
  destruct (f a this1) as [[r this2'] log2] eqn:E.
  intros H. injection H as -> -> <-.
  now exists a, this1, log1, log2.
Qed.

Lemma addedPairs_app (l1 l2 : list (Call TOptions)) :
  addedPairs (l1 ++ l2) = addedPairs l1 ++ addedPairs l2.
Proof. apply flat_map_app. Qed.

Lemma tracks_ret {A : Type} (a : A) : tracks (@ret TOptions A a).
Proof. intros this bs H. simpl. now rewrite app_nil_r. Qed.

Lemma tracks_throw {A : Type} (e : Error) : tracks (@throw TOptions A e).
Proof. intros this bs H. simpl. now rewrite app_nil_r. Qed.

Lemma tracks_getThis : tracks (@getThis TOptions).
Proof. intros this bs H. simpl. now rewrite app_nil_r. Qed.

Lemma tracks_bind {A B : Type} (m : Hook A) (f : A -> Hook B) :
  tracks m -> (forall a, tracks (f a)) -> tracks (bind m f).
Proof.
  intros Hm Hf this bs H. specialize (Hm this bs H).
  unfold bind. destruct (m this) as [[[a|e] this1] log1]; simpl in Hm.
  - specialize (Hf a this1 _ Hm).
    destruct (f a this1) as [[r this2] log2]. simpl in *.
    now rewrite addedPairs_app, app_assoc.
  - assumption.
Qed.

Lemma tracks_call (c : Call TOptions) : addedPairs [c] = [] -> tracks (call c).
Proof.
  intros Hc this bs H. unfold call. cbn [fst snd].
  now rewrite Hc, app_nil_r.
Qed.

Lemma tracks_set__translate v : tracks (@set__translate TOptions v).
Proof. intros this bs H. simpl. now rewrite app_nil_r. Qed.

Lemma tracks_forEach {A : Type} (f : A -> Hook unit) xs :
  (forall x, tracks (f x)) -> tracks (forEach f xs).
Proof.
  intros Hf. induction xs as [|x xs IH]; simpl.
  - apply tracks_ret.
  - apply tracks_bind; [apply Hf|intros _; apply IH].
Qed.

(** One entry of a bundle: the addition is logged and its pair is pushed. *)
Lemma register_entry localNs (entry : JSString * MessageValue) o bs tr :
  bind (call (addResourceBundle (fst entry) localNs (snd entry) true false))
       (fun _ => push__bundles (fst entry, localNs))
       (mkInstance o (Some bs) tr)
  = (Returned tt,
     mkInstance o (Some (bs ++ [(fst entry, localNs)])) tr,
     [@addResourceBundle TOptions (fst entry) localNs (snd entry) true false]).
Proof. reflexivity. Qed.

Lemma loadBundle_run localNs (bundle : Messages) :
  forall o bs tr,
    loadBundle localNs (JSobject bundle) (mkInstance o (Some bs) tr)
    = (Returned tt,
       mkInstance o (Some (bs ++ map (fun entry => (fst entry, localNs)) bundle)) tr,
       map (fun entry => @addResourceBundle TOptions
                           (fst entry) localNs (snd entry) true false)
           bundle).
Proof.
  unfold loadBundle. cbn [Object_entries]. intros o bs tr. rewrite bind_ret.
  revert o bs tr.
  induction bundle as [|entry bundle IH]; intros o bs tr; cbn [forEach map].
  - unfold ret. now rewrite app_nil_r.
  - unfold bind at 1. rewrite register_entry, IH.
    now rewrite <- app_assoc.
Qed.

(** [Object.entries(null)] throws before anything is added. *)
Lemma loadBundle_null localNs (this : ComponentI18nInstance) :
  @loadBundle TOptions localNs JSnull this = (Thrown TypeError, this, []).
Proof. reflexivity. Qed.

Lemma tracks_loadBundle localNs bundle : tracks (@loadBundle TOptions localNs bundle).
Proof.
  destruct bundle as [|bundle].
  - intros this bs H. rewrite loadBundle_null. simpl. now rewrite app_nil_r.
  - intros [o b tr] bs H. simpl in H. subst b.
    rewrite loadBundle_run. simpl. f_equal. f_equal.
    induction bundle as [|entry bundle IH]; simpl; [reflexivity|now rewrite IH].
Qed.

Lemma tracks_handleI18nOptions options (lb : BundleValue -> Hook unit) :
  (forall m, tracks (lb m)) -> tracks (handleI18nOptions i18next options lb).
Proof.
  intros Hlb. unfold handleI18nOptions.
  destruct (i18nOptions options) as [o|]; [|apply tracks_ret].
  apply tracks_bind.
  - destruct (messages o); [apply Hlb|apply tracks_ret].
  - intros _. apply tracks_bind; [|intros _; apply tracks_ret].
    destruct (match namespaces o with Some n => Some n | None => defaultNS i18next end)
      as [[s|l]|]; try apply tracks_call; try reflexivity; apply tracks_ret.
Qed.

Lemma tracks_getTranslationFunction lng ns :
  tracks (@getTranslationFunction TOptions lng ns).
Proof.
  unfold getTranslationFunction.
  destruct (truthy lng); [|destruct ns].
  - apply tracks_bind; [now apply tracks_call|intros _; apply tracks_ret].
  - apply tracks_bind; [now apply tracks_call|intros _; apply tracks_ret].
  - apply tracks_ret.
Qed.

Lemma beforeCreate_run rand this :
  @beforeCreate TOptions i18next JSON_parse rand this
  = if negb (isDefined (__i18n (dollar_options this))) &&
       negb (isDefined (i18nOptions (dollar_options this)))
    then (Returned tt, mkInstance (dollar_options this) (__bundles this) None, [])
    else afterAllocation i18next JSON_parse (dollar_options this) rand
                         (mkInstance (dollar_options this) (Some []) (__translate this)).
Proof.
  unfold beforeCreate. rewrite bind_getThis.
  destruct (negb (isDefined (__i18n (dollar_options this))) &&
            negb (isDefined (i18nOptions (dollar_options this))));
    [reflexivity|].
  now rewrite bind_set__bundles.
Qed.

Lemma tracks_afterAllocation options rand :
  tracks (@afterAllocation TOptions i18next JSON_parse options rand).
Proof.
  unfold afterAllocation.
  apply tracks_bind.
  - destruct (__i18n options); [|apply tracks_ret].
    apply tracks_forEach. intros bundle.
    destruct (JSON_parse bundle); [apply tracks_loadBundle|apply tracks_throw].
  - intros _. apply tracks_bind.
    + apply tracks_handleI18nOptions. intros m. apply tracks_loadBundle.
    + intros [[lng ns] keyPrefix].
      apply tracks_bind; [apply tracks_getThis|]. intros this1.
      apply tracks_bind; [apply tracks_getTranslationFunction|].
      intros t. apply tracks_set__translate.
Qed.

(** After [beforeCreate], however it ends, the registered-bundle list holds
    the pairs of the additions it made, in order. *)
Lemma beforeCreate_registered options rand :
  bundlesOf (snd (fst (@beforeCreate TOptions i18next JSON_parse rand
                                     (newInstance options))))
  = addedPairs (snd (@beforeCreate TOptions i18next JSON_parse rand
                                   (newInstance options))).
Proof.
  rewrite beforeCreate_run. cbn [newInstance dollar_options __bundles __translate].
  destruct (negb (isDefined (__i18n options)) && negb (isDefined (i18nOptions options)));
    [reflexivity|].
  unfold bundlesOf.
  now rewrite (tracks_afterAllocation options rand
                 (mkInstance options (Some []) None) [] eq_refl).
Qed.

Lemma unmounted_run (this : ComponentI18nInstance) :
  @unmounted TOptions this
  = (Returned tt, this,
     map (fun entry => removeResourceBundle (fst entry) (snd entry)) (bundlesOf this)).
Proof.
  unfold unmounted. rewrite bind_getThis. unfold bundlesOf.
  destruct (__bundles this) as [bundles|]; [|reflexivity].
  induction bundles as [|entry bundles IH]; [reflexivity|].
  cbn [forEach map]. rewrite bind_call, IH. reflexivity.
Qed.

Lemma removedPairs_removals (bundles : list (JSString * JSString)) :
  removedPairs (map (fun entry => @removeResourceBundle TOptions (fst entry) (snd entry))
                    bundles)
  = bundles.
Proof.
  induction bundles as [|[lng ns] bundles IH]; simpl; [reflexivity|].
  now rewrite IH.
Qed.

Lemma set__translate_run v (this : ComponentI18nInstance) :
  @set__translate TOptions v this
  = (Returned tt, mkInstance (dollar_options this) (__bundles this) v, []).
Proof. reflexivity. Qed.

Lemma getTranslationFunction_run lng ns (this : ComponentI18nInstance) :
  exists t log,
    @getTranslationFunction TOptions lng ns this = (Returned t, this, log) /\
    addedPairs log = [] /\
    forall l, ns = Some l ->
              exists lng', t = fixedT lng' (Some l) /\ log = [getFixedT lng' (Some l)].
Proof.
  unfold getTranslationFunction. destruct (truthy lng).
  - exists (fixedT lng ns), [getFixedT lng ns].
    repeat split. intros l ->. now exists lng.
  - destruct ns as [l|].
    + exists (fixedT None (Some l)), [getFixedT None (Some l)].
      repeat split. intros l' H. injection H as <-. now exists None.
    + exists genericT, []. repeat split. discriminate.
Qed.

Lemma handleI18nOptions_returned options (lb : BundleValue -> Hook unit)
      this r this' log :
  handleI18nOptions i18next options lb this = (Returned r, this', log) ->
  match snd (fst r) with Some l => l | None => [] end
  = declaredNamespaces i18next options.
Proof.
  unfold handleI18nOptions, declaredNamespaces.
  destruct (i18nOptions options) as [o|].
  - intros H.
    apply bind_returned in H. destruct H as (_ & thisA & logA & logB & _ & H & _).
    apply bind_returned in H. destruct H as (_ & thisB & logC & logD & _ & H & _).
    injection H as <- _ _. cbn [fst snd].
    now destruct (match namespaces o with Some n => Some n | None => defaultNS i18next end)
      as [[s|l]|].
  - intros H. injection H as <- _ _. reflexivity.
Qed.

Lemma emits_ret (P : Call TOptions -> Prop) {A : Type} (a : A) : emits P (ret a).
Proof. intros this. constructor. Qed.

Lemma emits_throw (P : Call TOptions -> Prop) {A : Type} (e : Error) : emits P (@throw TOptions A e).
Proof. intros this. constructor. Qed.

Lemma emits_bind (P : Call TOptions -> Prop) {A B : Type} (m : Hook A) (f : A -> Hook B) :
  emits P m -> (forall a, emits P (f a)) -> emits P (bind m f).
Proof.
  intros Hm Hf this. specialize (Hm this). unfold bind.
  destruct (m this) as [[[a|e] this1] log1]; simpl in Hm; [|assumption].
  specialize (Hf a this1). destruct (f a this1) as [[r this2] log2].
  simpl in *. now apply Forall_app.
Qed.

Lemma emits_call (P : Call TOptions -> Prop) c : P c -> emits P (call c).
Proof. intros Hc this. simpl. now constructor. Qed.

Lemma emits_silent (P : Call TOptions -> Prop) {A : Type} (m : Hook A) :
  (forall this, snd (m this) = []) -> emits P m.
Proof. intros H this. rewrite H. constructor. Qed.

Lemma emits_forEach (P : Call TOptions -> Prop) {A : Type} (f : A -> Hook unit) xs :
  (forall x, emits P (f x)) -> emits P (forEach f xs).
Proof.
  intros Hf. induction xs as [|x xs IH]; simpl.
  - apply emits_ret.
  - apply emits_bind; [apply Hf|intros _; apply IH].
Qed.

Lemma emits_loadBundle localNs bundle :
  emits (addsWithFixedFlags localNs) (@loadBundle TOptions localNs bundle).
Proof.
  unfold loadBundle. apply emits_bind;
    [destruct bundle; [apply emits_throw|apply emits_ret]|].
  intros entries.
  apply emits_forEach. intros entry. apply emits_bind.
  - apply emits_call. simpl. auto.
  - intros _. apply emits_silent. intros this. unfold push__bundles.
    rewrite bind_getThis. now destruct (__bundles this).
Qed.

Lemma emits_afterAllocation options rand :
  emits (addsWithFixedFlags (localNamespace (name options) rand))
        (@afterAllocation TOptions i18next JSON_parse options rand).
Proof.
  unfold afterAllocation.
  apply emits_bind.
  - destruct (__i18n options); [|apply emits_ret].
    apply emits_forEach. intros bundle.
    destruct (JSON_parse bundle); [apply emits_loadBundle|apply emits_throw].
  - intros _. apply emits_bind.
    + unfold handleI18nOptions.
      destruct (i18nOptions options) as [o|]; [|apply emits_ret].
      apply emits_bind.
      * destruct (messages o); [apply emits_loadBundle|apply emits_ret].
      * intros _. apply emits_bind; [|intros _; apply emits_ret].
        destruct (match namespaces o with Some n => Some n | None => defaultNS i18next end)
          as [[s|l]|]; try (apply emits_call; exact I); apply emits_ret.
    + intros [[lng ns] keyPrefix].
      apply emits_bind; [apply emits_silent; reflexivity|]. intros this1.
      apply emits_bind; [|intros t; apply emits_silent; reflexivity].
      unfold getTranslationFunction.
      destruct (truthy lng); [|destruct (match __bundles this1 with
                                         | Some (_ :: _) => _
                                         | _ => ns
                                         end)].
      * apply emits_bind; [apply emits_call; exact I|intros _; apply emits_ret].
      * apply emits_bind; [apply emits_call; exact I|intros _; apply emits_ret].
      * apply emits_ret.
Qed.

Lemma emits_beforeCreate rand this :
  Forall (addsWithFixedFlags (localNamespace (name (dollar_options this)) rand))
         (snd (@beforeCreate TOptions i18next JSON_parse rand this)).
Proof.
  rewrite beforeCreate_run.
  destruct (negb (isDefined (__i18n (dollar_options this))) &&
            negb (isDefined (i18nOptions (dollar_options this)))); [constructor|].
  apply emits_afterAllocation.
Qed.

End Hooks.

End InstallFacts.

(** ** [includes] finds a substring *)

Module StringFacts.

Lemma startsWith_spec (p : JSString) :
  forall s, startsWith s p = true <-> exists post, s = p ++ post.
Proof.
  induction p as [|c p IH]; intros s; simpl.
  - split; [intros _; now exists s|reflexivity].
  - destruct s as [|d s].
    + split; [discriminate|intros [post H]; discriminate].
    + rewrite andb_true_iff, N.eqb_eq, IH. split.
      * intros [-> [post ->]]. now exists post.
      * intros [post H]. injection H as -> ->. split; [reflexivity|now exists post].
Qed.

Lemma includes_spec (sub : JSString) :
  forall s, includes s sub = true <-> exists pre post, s = pre ++ sub ++ post.
Proof.
  induction s as [|c s IH]; simpl; rewrite orb_true_iff, startsWith_spec.
  - split.
    + intros [[post H]|H]; [|discriminate]. now exists [], post.
    + intros (pre & post & H). left.
      destruct pre; [now exists post|discriminate].
  - rewrite IH. split.
    + intros [[post H]|(pre & post & H)].
      * now exists [], post.
      * exists (c :: pre), post. simpl. now rewrite H.
    + intros (pre & post & H). destruct pre as [|d pre].
      * left. now exists post.
      * right. injection H as _ H. now exists pre, post.
Qed.

End StringFacts.

(** ** The mixin and the global translate function: main results *)

Import Install InstallFacts StringFacts.

(** C2: teardown returns, and logs exactly one removal for each addition
    [beforeCreate] logged, with the same (language, namespace) pairs in the
    same order, and nothing else; for a component whose registered-bundle
    list is empty or was never allocated it logs nothing, and a component
    with neither <i18n> blocks nor options allocates no list at all. *)
Theorem teardown_removes_registered :
  forall (TOptions : Type) (i18next : I18n)
         (JSON_parse : JSString -> option BundleValue)
         (options : ComponentOptions) (rand : N),
    let created :=
      @beforeCreate TOptions i18next JSON_parse rand (newInstance options) in
    let destroyed := @unmounted TOptions (snd (fst created)) in
    fst (fst destroyed) = Returned tt /\
    removedPairs (snd destroyed) = addedPairs (snd created) /\
    length (snd destroyed) = length (addedPairs (snd created)) /\
    forallb isRemoval (snd destroyed) = true /\
    (forall this : ComponentI18nInstance,
        bundlesOf this = [] ->
        @unmounted TOptions this = (Returned tt, this, [])) /\
    (__i18n options = None -> i18nOptions options = None ->
     created = (Returned tt, newInstance options, [])).
Proof.
  intros TOptions i18next JSON_parse options rand created destroyed.
  unfold destroyed. rewrite unmounted_run. cbn [fst snd].
  unfold created at 1 2 3. rewrite beforeCreate_registered. fold created.
  split; [reflexivity|].
  split; [apply removedPairs_removals|].
  split; [apply length_map|].
  split; [|split].
  - apply forallb_forall. intros c Hc. apply in_map_iff in Hc.
    destruct Hc as (entry & <- & _). reflexivity.
  - intros this H. rewrite unmounted_run, H. reflexivity.
  - intros H1 H2. unfold created. rewrite beforeCreate_run.
    cbn [newInstance dollar_options]. now rewrite H1, H2.
Qed.

(** C3, for a non-empty prefix: the closure passes the key on unchanged
    when the key contains the catalog's separator (a string), and passes
    keyPrefix + "." + key otherwise; with no prefix, or an empty one, every
    key is passed unchanged.  With separator ":" and prefix "greet",
    "ns:key" stays "ns:key" and "key" becomes "greet.key". *)
Theorem key_prefix_applied :
  forall (TOptions : Type) (i18next : I18n)
         (lookup : TFunction -> JSString -> option TOptions -> JSString)
         (c : CodeUnit) (p : JSString) (t : TFunction)
         (key : JSString) (options : option TOptions),
    let passes (prefix : option JSString) (key' : JSString) :=
      applyTranslate i18next lookup (mkClosure prefix t) key options
      = (lookup t key' options, [translate t key' options]) in
    passes (Some (c :: p))
           (if includesNs i18next key then key else (c :: p) ++ u16 "." ++ key) /\
    passes None key /\
    passes (Some []) key /\
    (includesNs i18next key = true <->
     exists sep pre post,
       nsSeparator i18next = Some sep /\ key = pre ++ sep ++ post) /\
    (forall init dns,
        applyTranslate (mkI18n init (Some (u16 ":")) dns) lookup
                       (mkClosure (Some (u16 "greet")) t) (u16 "ns:key") options
        = (lookup t (u16 "ns:key") options,
           [translate t (u16 "ns:key") options]) /\
        applyTranslate (mkI18n init (Some (u16 ":")) dns) lookup
                       (mkClosure (Some (u16 "greet")) t) (u16 "key") options
        = (lookup t (u16 "greet.key") options,
           [translate t (u16 "greet.key") options])).
Proof.
  intros TOptions i18next lookup c p t key options passes. unfold passes.
  split; [|split; [reflexivity|split; [reflexivity|split]]].
  - unfold applyTranslate. cbn [closure_keyPrefix closure_t truthy negb orb].
    now destruct (includesNs i18next key).
  - unfold includesNs. destruct (nsSeparator i18next) as [sep|].
    + rewrite includes_spec. split.
      * intros (pre & post & H). now exists sep, pre, post.
      * intros (sep' & pre & post & Hsep & H). injection Hsep as <-.
        now exists pre, post.
    + split; [discriminate|]. intros (sep & pre & post & Hsep & _). discriminate.
  - intros init dns. split; reflexivity.
Qed.

(** C3 as stated fails for the prefix "": the key "key" does not contain
    the separator ":", and the closure passes "key", not ".key". *)
Lemma empty_prefix_not_applied :
  let i18next := mkI18n true (Some (u16 ":")) None in
  let lookup := fun (_ : TFunction) (k : JSString) (_ : option unit) => k in
  includesNs i18next (u16 "key") = false /\
  snd (applyTranslate i18next lookup (mkClosure (Some []) genericT) (u16 "key") None)
  <> [translate genericT ([] ++ u16 "." ++ u16 "key") None].
Proof. split; [reflexivity|vm_compute; discriminate]. Qed.

(** C4: the global translate function reads the reactive marker first, in
    every case.  With the catalog not initialized it returns the key and
    calls no lookup; otherwise it calls the component's own closure when the
    component has one, and the catalog's generic lookup when it has none or
    when there is no component. *)
Theorem global_translate :
  forall (TOptions : Type)
         (lookup : TFunction -> JSString -> option TOptions -> JSString)
         (sep : option JSString) (dns : option Namespaces)
         (this : option ComponentI18nInstance)
         (key : JSString) (options : option TOptions),
    dollar_t (mkI18n false sep dns) lookup this key options
    = (key, [usingI18n]) /\
    (forall o b c,
        dollar_t (mkI18n true sep dns) lookup (Some (mkInstance o b (Some c)))
                 key options
        = (fst (applyTranslate (mkI18n true sep dns) lookup c key options),
           usingI18n
             :: snd (applyTranslate (mkI18n true sep dns) lookup c key options))) /\
    (forall o b,
        dollar_t (mkI18n true sep dns) lookup (Some (mkInstance o b None))
                 key options
        = (lookup genericT key options,
           [usingI18n; translate genericT key options])) /\
    dollar_t (mkI18n true sep dns) lookup None key options
    = (lookup genericT key options, [usingI18n; translate genericT key options]) /\
    (forall i18next,
        hd_error (snd (dollar_t i18next lookup this key options))
        = Some usingI18n) /\
    dollar_t (mkI18n false sep dns) lookup this (u16 "greeting") options
    = (u16 "greeting", [usingI18n]).
Proof.
  intros TOptions lookup sep dns this key options.
  repeat split; try reflexivity.
  intros i18next. unfold dollar_t. now destruct (isInitialized i18next).
Qed.

(** C7: when [beforeCreate] returns and has added at least one bundle, the
    lookup function it stores was built by [getFixedT] on a namespace list
    whose first element is the component-local namespace, followed by the
    namespaces the component declares or else the catalog's default. *)
Theorem local_namespace_first :
  forall (TOptions : Type) (i18next : I18n)
         (JSON_parse : JSString -> option BundleValue)
         (options : ComponentOptions) (rand : N)
         (this1 : ComponentI18nInstance) (log : list (Call TOptions)),
    beforeCreate i18next JSON_parse rand (newInstance options)
    = (Returned tt, this1, log) ->
    addedPairs log <> [] ->
    exists keyPrefix lng,
      let ns := localNamespace (name options) rand
                :: declaredNamespaces i18next options in
      __translate this1 = Some (mkClosure keyPrefix (fixedT lng (Some ns))) /\
      In (getFixedT lng (Some ns)) log.
Proof.
  intros TOptions i18next JSON_parse options rand this1 log Hrun Hadded.
  rewrite beforeCreate_run in Hrun.
  cbn [newInstance dollar_options __bundles __translate] in Hrun.
  destruct (negb (isDefined (__i18n options)) && negb (isDefined (i18nOptions options))).
  { injection Hrun as _ <-. now contradiction Hadded. }
  unfold afterAllocation in Hrun.
  apply bind_returned in Hrun.
  destruct Hrun as (u & thisA & logA & logR & HA & Hrun & ->).
  apply bind_returned in Hrun.
  destruct Hrun as ([[lng ns] keyPrefix] & thisB & logB & logR' & HB & Hrun & ->).
  rewrite bind_getThis in Hrun.
  apply bind_returned in Hrun.
  destruct Hrun as (t & thisC & logC & logD & HC & HD & ->).
  rewrite set__translate_run in HD. injection HD as <- <-.
  pose proof (handleI18nOptions_returned _ _ _ _ _ _ _ _ HB) as Hns.
  cbn [fst snd] in Hns.
  (* the registered-bundle list when the namespace list is built *)
  assert (HbA : __bundles thisA = Some (addedPairs logA)).
  { assert (Htr : @tracks TOptions unit
                    match __i18n options with
                    | Some blocks =>
                        forEach (fun bundle =>
                                   match JSON_parse bundle with
                                   | Some parsed =>
                                       @loadBundle TOptions
                                         (localNamespace (name options) rand) parsed
                                   | None => throw SyntaxError
                                   end) blocks
                    | None => ret tt
                    end).
    { destruct (__i18n options); [|apply tracks_ret].
      apply tracks_forEach. intros bundle.
      destruct (JSON_parse bundle); [apply tracks_loadBundle|apply tracks_throw]. }
    specialize (Htr (mkInstance options (Some []) None) [] eq_refl).
    now rewrite HA in Htr. }
  assert (HbB : __bundles thisB = Some (addedPairs logA ++ addedPairs logB)).
  { pose proof (tracks_handleI18nOptions TOptions i18next options
                  (loadBundle (localNamespace (name options) rand))
                  (fun m => tracks_loadBundle _ _ m) thisA _ HbA) as Htr.
    now rewrite HB in Htr. }
  destruct (getTranslationFunction_run
              TOptions lng
              match __bundles thisB with
              | Some (_ :: _) =>
                  Some (localNamespace (name options) rand
                        :: match ns with Some l => l | None => [] end)
              | _ => ns
              end thisB) as (t' & logC' & HC' & HaddC & Hfixed).
  rewrite HC in HC'. injection HC' as -> -> ->.
  rewrite !addedPairs_app, HaddC in Hadded. simpl in Hadded.
  rewrite ?app_nil_r in Hadded.
  rewrite HbB in Hfixed.
  destruct (addedPairs logA ++ addedPairs logB) as [|pair pairs];
    [now contradiction Hadded|].
  destruct (Hfixed _ eq_refl) as (lng' & -> & ->).
  exists keyPrefix, lng'. cbn zeta. rewrite <- Hns.
  split; [reflexivity|].
  apply in_or_app. right. apply in_or_app. right.
  apply in_or_app. left. now left.
Qed.

(** C8, as the code has it: every entry of a bundle handed to
    [loadBundle] is added to the catalog under the local namespace with
    [deep = true] and [overwrite = false], and its (language, local
    namespace) pair is appended to the registered-bundle list;
    [beforeCreate] makes no other kind of addition, and none of its calls
    asks the catalog to overwrite existing keys. *)
Theorem bundle_registered_with_fixed_flags :
  forall (TOptions : Type) (i18next : I18n)
         (JSON_parse : JSString -> option BundleValue)
         (localNs : JSString) (bundle : Messages)
         (options : ComponentOptions) (bundles : list (JSString * JSString))
         (tr : option TranslateClosure)
         (rand : N) (this : ComponentI18nInstance),
    loadBundle localNs (JSobject bundle) (mkInstance options (Some bundles) tr)
    = (Returned tt,
       mkInstance options
                  (Some (bundles ++ map (fun entry => (fst entry, localNs)) bundle))
                  tr,
       map (fun entry => @addResourceBundle TOptions
                           (fst entry) localNs (snd entry) true false)
           bundle) /\
    Forall (addsWithFixedFlags (localNamespace (name (dollar_options this)) rand))
           (snd (@beforeCreate TOptions i18next JSON_parse rand this)) /\
    Forall (fun c => requestsOverwrite c = false)
           (snd (@beforeCreate TOptions i18next JSON_parse rand this)).
Proof.
  intros. split; [apply loadBundle_run|]. split; [apply emits_beforeCreate|].
  eapply Forall_impl; [|apply emits_beforeCreate]. cbn beta.
  intros c Hc. destruct c; try reflexivity. now destruct Hc as (_ & _ & ->).
Qed.

(** C8 as stated fails: the addition of an entry is made with [overwrite =
    false], so it does not come with the policy of overwriting existing
    keys. *)
Lemma overwrite_not_requested :
  let log :=
    snd (@loadBundle unit (u16 "greeter-7")
           (JSobject [(u16 "en", MsgString (u16 "Hello"))])
           (mkInstance (mkOptions None None None) (Some []) None)) in
  log = [addResourceBundle (u16 "en") (u16 "greeter-7") (MsgString (u16 "Hello"))
                           true false] /\
  ~ Exists (fun c => requestsOverwrite c = true) log.
Proof.
  cbv zeta. split; [reflexivity|].
  intros H. apply Exists_exists in H. destruct H as (c & [<-|[]] & Hc).
  discriminate Hc.
Qed.

(** C7 on a component named "greeter" with one <i18n> block holding an
    English bundle, a key prefix and no declared namespaces, the catalog's
    default namespace being "translation". *)
Lemma local_namespace_first_witness :
  let i18next := mkI18n true (Some (u16 ":")) (Some (NsString (u16 "translation"))) in
  let options :=
    mkOptions (Some (u16 "greeter")) (Some [Resolution.helloBlock])
              (Some (mkI18nOptions None (Some (u16 "greet")) None None)) in
  let created :=
    @beforeCreate unit i18next Resolution.sampleParse 12345678 (newInstance options) in
  created = (Returned tt, snd (fst created), snd created) /\
  addedPairs (snd created) <> [] /\
  exists keyPrefix lng,
    __translate (snd (fst created))
    = Some (mkClosure keyPrefix
              (fixedT lng (Some [u16 "greeter-12345678"; u16 "translation"]))) /\
    In (getFixedT lng (Some [u16 "greeter-12345678"; u16 "translation"]))
       (snd created).
Proof.
  cbv zeta.
  split; [vm_compute; reflexivity|].
  split; [vm_compute; discriminate|].
  apply (local_namespace_first
           unit
           (mkI18n true (Some (u16 ":")) (Some (NsString (u16 "translation"))))
           Resolution.sampleParse
           (mkOptions (Some (u16 "greeter")) (Some [Resolution.helloBlock])
                      (Some (mkI18nOptions None (Some (u16 "greet")) None None)))
           12345678%N).
  - vm_compute. reflexivity.
  - vm_compute. discriminate.
Defined.

(* ================================================================== *)
(** * Part III: further properties of the code                         *)
(* ================================================================== *)

(** ** More on the scan *)

Module ScanFacts.

Import RenderText.

(** What each placeholder of a scan satisfies, and their order. *)
Lemma execAll_ordered t fuel :
  forall li,
    li <= length t ->
    Forall (fun m => li <= index m /\ index m + 3 <= endIndex m /\
                     endIndex m <= length t /\
                     matched m = slice t (index m) (endIndex m))
           (execAll fuel (atIndex li) t) /\
    StronglySorted (fun m1 m2 => endIndex m1 <= index m2)
                   (execAll fuel (atIndex li) t).
Proof.
  induction fuel as [|fuel IH]; intros li Hli; cbn [execAll].
  - split; constructor.
  - destruct (exec (atIndex li) t) as [[m|] re'] eqn:E; [|split; constructor].
    destruct (exec_some _ _ _ _ Hli E)
      as (pre & w & name & post & Ht & Hpre & -> & Hw & -> & _).
    pose proof (slotText_length _ _ _ Hw) as Hlen.
    assert (Hend : length pre + length w <= length t).
    { rewrite Ht, !length_app. lia. }
    destruct (IH _ Hend) as [Hall Hsorted].
    unfold endIndex in *. cbn [index matched] in *.
    split.
    + constructor.
      * cbn [index matched]. repeat split; try lia.
        rewrite Ht. symmetry. apply slice_middle.
      * eapply Forall_impl; [|exact Hall]. cbn beta. intros m' H. intuition lia.
    + constructor; [assumption|].
      eapply Forall_impl; [|exact Hall]. cbn beta.
      intros m' H. cbn [index matched]. intuition lia.
Qed.


Lemma scanSlot_head p ch s :
  (ch =? 123)%N = false -> scanSlot p (ch :: s) = None.
Proof. intros H. unfold scanSlot. now rewrite H. Qed.

Lemma findSlot_needs_braces p i (s : JSString) j name s' :
  findSlot p i s = Some (j, name, s') -> In 123%N s /\ In 125%N s.
Proof.
  intros H. apply findSlot_some in H.
  destruct H as (pre & w & -> & _ & (ws1 & ws2 & -> & _) & _).
  split; apply in_or_app; right; apply in_or_app; left.
  - now left.
  - right. apply in_or_app. right. apply in_or_app. right.
    apply in_or_app. right. now left.
Qed.

Lemma findSlot_no_lbrace p i (s : JSString) :
  ~ In 123%N s -> findSlot p i s = None.
Proof.
  intros H. destruct (findSlot p i s) as [[[j name] s']|] eqn:E; [|reflexivity].
  apply findSlot_needs_braces in E. tauto.
Qed.

(** Text without an opening brace in front of a placeholder is skipped. *)
Lemma findSlot_after_prefix p (pre : JSString) :
  ~ In 123%N pre ->
  forall i (s name s' : JSString),
    scanSlot p s = Some (name, s') ->
    findSlot p i (pre ++ s) = Some (i + length pre, name, s').
Proof.
  induction pre as [|ch pre IH]; intros Hpre i s name s' Hs.
  - simpl. rewrite Nat.add_0_r.
    destruct s; cbn [findSlot]; now rewrite Hs.
  - cbn [app findSlot]. rewrite scanSlot_head.
    + rewrite (IH ltac:(intros H; apply Hpre; now right) (S i) s name s' Hs).
      cbn [length]. f_equal. f_equal. f_equal. lia.
    + apply N.eqb_neq. intros ->. apply Hpre. now left.
Qed.

Lemma placeholders_none t :
  findSlot nameChar 0 t = None -> placeholders t = [].
Proof.
  intros H. unfold placeholders. change slotNamePattern with (atIndex 0).
  cbn [Nat.add execAll]. rewrite exec_atIndex by lia.
  cbn [skipn]. now rewrite H.
Qed.

Lemma segments_plain t :
  findSlot nameChar 0 t = None -> segments t = [Literal t].
Proof.
  intros H. unfold segments. rewrite (placeholders_none _ H).
  cbn [segmentsFrom]. now rewrite substringFrom_skipn by lia.
Qed.

(** A template that is one placeholder between two texts free of opening
    braces. *)
Lemma placeholders_single (pre w name post : JSString) :
  ~ In 123%N pre -> ~ In 123%N post -> slotText nameChar w name ->
  placeholders (pre ++ w ++ post) = [mkMatch (length pre) w (Some name)].
Proof.
  intros Hpre Hpost Hw.
  pose proof (slotText_length _ _ _ Hw) as Hlen.
  assert (Hscan : scanSlot nameChar (w ++ post) = Some (name, post)).
  { apply scanSlot_complete; [apply name_not_space|reflexivity|assumption]. }
  remember (pre ++ w ++ post) as t eqn:Ht.
  assert (Hlt : length t = length pre + length w + length post).
  { rewrite Ht, !length_app. lia. }
  assert (Hfind : findSlot nameChar 0 t = Some (length pre, name, post)).
  { rewrite Ht. apply (findSlot_after_prefix nameChar pre Hpre 0 _ _ _ Hscan). }
  assert (Hskip : skipn (length pre + length w) t = post).
  { rewrite Ht. apply skipn_middle. }
  assert (Hmid : slice t (length pre) (length pre + length w) = w).
  { rewrite Ht. apply slice_middle. }
  clear Ht.
  unfold placeholders. change slotNamePattern with (atIndex 0).
  replace (1 + length t) with (S (S (length t - 1))) by lia.
  cbn [execAll]. rewrite exec_atIndex by lia. cbn [skipn].
  rewrite Hfind.
  replace (length t - length post) with (length pre + length w) by lia.
  rewrite exec_atIndex by lia.
  rewrite Hskip, (findSlot_no_lbrace nameChar _ post Hpost).
  now rewrite Hmid.
Qed.

Lemma substring_front (pre r : JSString) :
  substring (pre ++ r) 0 (length pre) = pre.
Proof.
  rewrite substring_slice by (rewrite ?length_app; lia).
  now rewrite (slice_prefix pre r 0) by lia.
Qed.

Lemma substringFrom_back (pre w post : JSString) :
  substringFrom (pre ++ w ++ post) (length pre + length w) = post.
Proof.
  rewrite substringFrom_skipn by (rewrite !length_app; lia).
  apply skipn_middle.
Qed.

Lemma segments_single (pre w name post : JSString) :
  ~ In 123%N pre -> ~ In 123%N post -> slotText nameChar w name ->
  segments (pre ++ w ++ post)
  = [Literal pre; SlotReference name w; Literal post].
Proof.
  intros Hpre Hpost Hw. unfold segments.
  rewrite (placeholders_single pre w name post Hpre Hpost Hw).
  cbn [segmentsFrom index matched group1 propertyKey].
  unfold endIndex. cbn [index matched].
  now rewrite substring_front, substringFrom_back.
Qed.

Lemma outputText_texts (VNode : Type) (segs : list Segment) :
  outputText (map (fun seg => @Text VNode (segmentText seg)) segs) = reconstruct segs.
Proof.
  unfold outputText, reconstruct.
  induction segs as [|seg segs IH]; [reflexivity|].
  cbn [map flat_map childText]. now rewrite IH.
Qed.

(** The texts of a scan from any position concatenate to the template. *)
Lemma reconstruct_stale t li :
  reconstruct (segmentsFrom t 0 (execAll (1 + length t) (atIndex li) t)) = t.
Proof.
  assert (Hplain : reconstruct [Literal (substringFrom t 0)] = t).
  { unfold reconstruct. cbn [flat_map segmentText].
    rewrite substringFrom_skipn by lia. apply app_nil_r. }
  cbn [Nat.add execAll].
  destruct (Nat.le_gt_cases li (length t)) as [Hli|Hli].
  - destruct (exec (atIndex li) t) as [[m|] re'] eqn:E; [|exact Hplain].
    destruct (exec_some _ _ _ _ Hli E)
      as (pre & w & name & post & Ht & Hpre & -> & Hw & -> & _).
    pose proof (slotText_length _ _ _ Hw) as Hlen.
    assert (Hlt : length t = length pre + length w + length post).
    { rewrite Ht, !length_app. lia. }
    cbn [segmentsFrom index matched]. unfold endIndex. cbn [index matched].
    unfold reconstruct. cbn [flat_map segmentText].
    fold (reconstruct (segmentsFrom t (length pre + length w)
            (execAll (length t) (atIndex (length pre + length w)) t))).
    rewrite reconstruct_from by lia.
    assert (Hskip : skipn (length pre + length w) t = post).
    { rewrite Ht. apply skipn_middle. }
    assert (Hfront : substring t 0 (length pre) = pre).
    { rewrite Ht. apply substring_front. }
    rewrite Hfront, Hskip. symmetry. exact Ht.
  - rewrite exec_beyond by assumption. exact Hplain.
Qed.

End ScanFacts.

Import RenderText ScanFacts.

(** X1: the placeholders of a template come in the order of the input and
    do not overlap: each one ends no later than any later one starts.  Each
    is at least three code units long, lies within the input, and its
    matched text is the input between its start and its end. *)
Theorem placeholders_in_order :
  forall t : JSString,
    StronglySorted (fun m1 m2 => endIndex m1 <= index m2) (placeholders t) /\
    Forall (fun m => index m + 3 <= endIndex m /\
                     endIndex m <= length t /\
                     matched m = slice t (index m) (endIndex m))
           (placeholders t).
Proof.
  intros t. unfold placeholders. change slotNamePattern with (atIndex 0).
  destruct (execAll_ordered t (1 + length t) 0 ltac:(lia)) as [Hall Hsorted].
  split; [assumption|].
  eapply Forall_impl; [|exact Hall]. cbn beta. intros m H. tauto.
Qed.


(** X3: a template without an opening brace, or without a closing brace,
    renders as the single element equal to the input, whatever the slots. *)
Theorem plain_text_unchanged :
  forall (VNode : Type) (slots : Slots VNode) (t : JSString),
    ~ In 123%N t \/ ~ In 125%N t ->
    setup t slots slotNamePattern = Some (Rendered [Text t], slotNamePattern).
Proof.
  intros VNode slots t H.
  apply setup_no_placeholder, placeholders_none.
  destruct (findSlot nameChar 0 t) as [[[j name] s']|] eqn:E; [|reflexivity].
  apply findSlot_needs_braces in E. tauto.
Qed.

Lemma plain_text_unchanged_witness :
  (~ In 123%N (u16 "Hello") \/ ~ In 125%N (u16 "Hello")) /\
  setup (u16 "Hello") (@bobSlots Empty_set) slotNamePattern
  = Some (Rendered [Text (u16 "Hello")], slotNamePattern).
Proof.
  assert (H : ~ In 123%N (u16 "Hello") \/ ~ In 125%N (u16 "Hello")).
  { left. simpl. intuition discriminate. }
  split; [exact H|].
  apply (plain_text_unchanged Empty_set bobSlots (u16 "Hello") H).
Defined.

(** X4: a render that finds the shared pattern object at any scan position
    ends, and when it returns it leaves the position at 0, so the render
    after it starts afresh; when an exception leaves it, the position stays
    behind the placeholder whose slot value raised.  A render from a stale
    position loses no text: when the [slots] object answers none of the
    names it looks up, the render returns and the texts it pushes
    concatenate to the template. *)
Theorem stale_position_recovers :
  forall (VNode : Type) (slots : Slots VNode) (t : JSString) (li : nat),
    let ms := execAll (1 + length t) (atIndex li) t in
    (exists c re',
        setup t slots (atIndex li) = Some (c, re') /\
        (forall out, c = Rendered out -> re' = slotNamePattern) /\
        (c = Aborted ->
         exists m slot,
           In m ms /\ getSlot slots (propertyKey (group1 m)) = Some slot /\
           slot tt = Raises /\ re' = atIndex (endIndex m))) /\
    ((forall m, In m ms -> getSlot slots (propertyKey (group1 m)) = None) ->
     exists out,
       setup t slots (atIndex li) = Some (Rendered out, slotNamePattern) /\
       outputText out = t).
Proof.
  intros VNode slots t li ms. rewrite setup_weave. fold ms. split.
  - destruct (weave slots t 0 ms []) as [c re'] eqn:E.
    exists c, re'. split; [reflexivity|]. split.
    + intros out ->. now apply weave_rendered in E.
    + intros ->. now apply weave_aborted in E.
  - intros Hnone.
    pose proof (weave_fill VNode slots t ms 0 []) as Hfill.
    rewrite fillAll_unanswered in Hfill.
    + destruct (weave slots t 0 ms []) as [c re'] eqn:E.
      cbn [fst app] in Hfill. subst c.
      eexists. split.
      * f_equal. f_equal. now apply weave_rendered in E.
      * rewrite outputText_texts. apply reconstruct_stale.
    + intros name w Hin. apply segmentsFrom_refs in Hin.
      destruct Hin as (m & Hm & -> & _). now apply Hnone.
Qed.

Lemma stale_position_recovers_witness :
  (forall m,
      In m (execAll (1 + length (u16 "{a}{b}")) (atIndex 3) (u16 "{a}{b}")) ->
      getSlot (@noSlots Empty_set) (propertyKey (group1 m)) = None) /\
  exists out,
    setup (u16 "{a}{b}") (@noSlots Empty_set) (atIndex 3)
    = Some (Rendered out, slotNamePattern) /\
    outputText out = u16 "{a}{b}".
Proof.
  assert (H : forall m,
             In m (execAll (1 + length (u16 "{a}{b}")) (atIndex 3) (u16 "{a}{b}")) ->
             getSlot (@noSlots Empty_set) (propertyKey (group1 m)) = None).
  { intros m Hin. vm_compute in Hin. destruct Hin as [<-|[]]. reflexivity. }
  split; [exact H|].
  exact (proj2 (stale_position_recovers Empty_set noSlots (u16 "{a}{b}") 3) H).
Defined.



(** ** The component-local namespace *)

Module NamespaceFacts.

Import Install.

Lemma digits_inj u : forall u', digits u = digits u' -> u = u'.
Proof.
  induction u; destruct u'; simpl; intros H;
    try discriminate H; try reflexivity;
    injection H as H; f_equal; auto.
Qed.

Lemma toString_inj n n' : toString n = toString n' -> n = n'.
Proof.
  unfold toString. intros H.
  now apply DecimalN.Unsigned.to_uint_inj, digits_inj.
Qed.

Lemma toString_truthy n : truthy (Some (toString n)) = true.
Proof.
  unfold toString. destruct n as [|p]; [reflexivity|].
  simpl. pose proof (DecimalPos.Unsigned.to_uint_nonnil p) as H.
  destruct (Pos.to_uint p); [congruence| | | | | | | | | |]; reflexivity.
Qed.

Lemma localNamespace_eq name rand :
  localNamespace name rand
  = if truthy name
    then match name with Some n => n | None => [] end ++ u16 "-" ++ toString rand
    else toString rand.
Proof.
  unfold localNamespace. cbn [filter].
  rewrite toString_truthy. destruct (truthy name); reflexivity.
Qed.

End NamespaceFacts.

Import Install NamespaceFacts.

(** X6: for one component name, different random draws give different
    local namespaces. *)
Theorem localNamespace_distinct :
  forall (name : option JSString) (rand1 rand2 : N),
    rand1 <> rand2 ->
    localNamespace name rand1 <> localNamespace name rand2.
Proof.
  intros name rand1 rand2 Hne H. apply Hne.
  rewrite !localNamespace_eq in H.
  destruct (truthy name).
  - now apply app_inv_head, app_inv_head, toString_inj in H.
  - now apply toString_inj.
Qed.

Lemma localNamespace_distinct_witness :
  1%N <> 2%N /\
  localNamespace (Some (u16 "comp")) 1 <> localNamespace (Some (u16 "comp")) 2.
Proof.
  assert (H : 1%N <> 2%N) by discriminate.
  split; [exact H|].
  apply (localNamespace_distinct (Some (u16 "comp")) 1%N 2%N H).
Defined.

(** ** The hooks in closed form *)

Module HookRuns.

Import Install InstallFacts Resolution.

Section Runs.

Variable TOptions : Type.
Variable i18next : I18n.
Variable JSON_parse : JSString -> option BundleValue.

#[local] Abbreviation Hook := (M TOptions).

Lemma bind_eval {A B : Type} (m : Hook A) (f : A -> Hook B) this a this1 log1 :
  m this = (Returned a, this1, log1) ->
  bind m f this
  = (fst (fst (f a this1)), snd (fst (f a this1)), log1 ++ snd (f a this1)).
Proof.
  intros H. unfold bind. rewrite H. now destruct (f a this1) as [[r this2] log2].
Qed.

Lemma bind_thrown {A B : Type} (m : Hook A) (f : A -> Hook B) this e this1 log1 :
  m this = (Thrown e, this1, log1) ->
  bind m f this = (Thrown e, this1, log1).
Proof. intros H. unfold bind. now rewrite H. Qed.

(** The loop over the <i18n> blocks stops at the first block that fails. *)
Lemma blocks_run localNs blocks :
  forall o bs tr,
    forEach (fun bundle =>
               match JSON_parse bundle with
               | Some parsed => @loadBundle TOptions localNs parsed
               | None => throw SyntaxError
               end)
            blocks (mkInstance o (Some bs) tr)
    = (match snd (loadBlocks JSON_parse blocks) with
       | None => Returned tt
       | Some e => Thrown e
       end,
       mkInstance o (Some (bs ++ registered localNs
                                   (fst (loadBlocks JSON_parse blocks)))) tr,
       additions localNs (fst (loadBlocks JSON_parse blocks))).
Proof.
  induction blocks as [|block blocks IH]; intros o bs tr;
    cbn [forEach loadBlocks fst snd].
  - unfold ret, registered, additions. cbn [map]. now rewrite app_nil_r.
  - destruct (JSON_parse block) as [[|parsed]|]; cbn [fst snd].
    + rewrite (bind_thrown _ _ _ TypeError (mkInstance o (Some bs) tr) [])
        by reflexivity.
      unfold registered, additions. cbn [map]. now rewrite app_nil_r.
    + rewrite (bind_eval _ _ _ _ _ _ (loadBundle_run TOptions localNs parsed o bs tr)).
      rewrite IH. cbn [fst snd].
      unfold registered, additions. rewrite !map_app, app_assoc.
      reflexivity.
    + rewrite (bind_thrown _ _ _ SyntaxError (mkInstance o (Some bs) tr) [])
        by reflexivity.
      unfold registered, additions. cbn [map]. now rewrite app_nil_r.
Qed.

Lemma handleI18nOptions_run localNs options o bs tr :
  handleI18nOptions i18next options (@loadBundle TOptions localNs)
                    (mkInstance o (Some bs) tr)
  = (Returned (declaredLng options, resolvedNs i18next options,
               declaredKeyPrefix options),
     mkInstance o (Some (bs ++ registered localNs (messagesEntries options))) tr,
     additions localNs (messagesEntries options)
     ++ namespaceCalls (resolvedNs i18next options)).
Proof.
  unfold handleI18nOptions, declaredLng, resolvedNs, declaredKeyPrefix,
    messagesEntries, registered, additions, namespaceCalls.
  destruct (i18nOptions options) as [opt|].
  - destruct (messages opt) as [msgs|].
    + rewrite (bind_eval _ _ _ _ _ _ (loadBundle_run TOptions localNs msgs o bs tr)).
      destruct (match namespaces opt with Some n => Some n | None => defaultNS i18next end)
        as [[s|l]|]; reflexivity.
    + destruct (match namespaces opt with Some n => Some n | None => defaultNS i18next end)
        as [[s|l]|]; cbn; now rewrite app_nil_r.
  - cbn. now rewrite app_nil_r.
Qed.

Lemma getTranslationFunction_closed lng ns (this : ComponentI18nInstance) :
  @getTranslationFunction TOptions lng ns this
  = (Returned (functionFor lng ns), this, functionCalls lng ns).
Proof.
  unfold getTranslationFunction, functionFor, functionCalls.
  destruct (truthy lng); [reflexivity|]. now destruct ns.
Qed.

Lemma registered_match {A : Type} localNs (entries : Messages) (x y : A) :
  match registered localNs entries with
  | _ :: _ => x
  | [] => y
  end
  = match entries with
    | _ :: _ => x
    | [] => y
    end.
Proof. now destruct entries. Qed.

Lemma registered_app localNs (a b : Messages) :
  registered localNs (a ++ b) = registered localNs a ++ registered localNs b.
Proof. apply map_app. Qed.

(** [beforeCreate] on a fresh instance, in closed form. *)
Lemma beforeCreate_effect rand options :
  @beforeCreate TOptions i18next JSON_parse rand (newInstance options)
  = if negb (isDefined (__i18n options)) && negb (isDefined (i18nOptions options))
    then (Returned tt, newInstance options, [])
    else
      let localNs := localNamespace (name options) rand in
      let blocks := loadBlocks JSON_parse (blocksOf options) in
      match snd blocks with
      | None =>
          let entries := fst blocks ++ messagesEntries options in
          let ns := namespacesUsed localNs entries (resolvedNs i18next options) in
          (Returned tt,
           mkInstance options (Some (registered localNs entries))
                      (Some (mkClosure (declaredKeyPrefix options)
                                       (functionFor (declaredLng options) ns))),
           additions localNs entries
           ++ namespaceCalls (resolvedNs i18next options)
           ++ functionCalls (declaredLng options) ns)
      | Some e =>
          (Thrown e,
           mkInstance options (Some (registered localNs (fst blocks))) None,
           additions localNs (fst blocks))
      end.
Proof.
  rewrite beforeCreate_run. cbn [newInstance dollar_options __bundles __translate].
  destruct (negb (isDefined (__i18n options)) && negb (isDefined (i18nOptions options)));
    [reflexivity|].
  cbv zeta. unfold afterAllocation.
  set (localNs := localNamespace (name options) rand).
  assert (Hblocks :
            match __i18n options with
            | Some blocks =>
                forEach (fun bundle =>
                           match JSON_parse bundle with
                           | Some parsed => @loadBundle TOptions localNs parsed
                           | None => throw SyntaxError
                           end) blocks
            | None => ret tt
            end (mkInstance options (Some []) None)
            = (match snd (loadBlocks JSON_parse (blocksOf options)) with
               | None => Returned tt
               | Some e => Thrown e
               end,
               mkInstance options
                          (Some (registered localNs
                                   (fst (loadBlocks JSON_parse (blocksOf options)))))
                          None,
               additions localNs (fst (loadBlocks JSON_parse (blocksOf options))))).
  { unfold blocksOf. destruct (__i18n options) as [blocks|].
    - now rewrite blocks_run.
    - reflexivity. }
  destruct (snd (loadBlocks JSON_parse (blocksOf options))) as [e|].
  - now rewrite (bind_thrown _ _ _ _ _ _ Hblocks).
  - rewrite (bind_eval _ _ _ _ _ _ Hblocks).
    rewrite (bind_eval _ _ _ _ _ _
               (handleI18nOptions_run localNs options options _ None)).
    rewrite bind_getThis. cbn [__bundles].
    rewrite (bind_eval _ _ _ _ _ _ (getTranslationFunction_closed _ _ _)).
    rewrite set__translate_run. cbn [fst snd dollar_options __bundles].
    rewrite <- !registered_app, !registered_match.
    unfold namespacesUsed, additions. rewrite map_app, app_nil_r, <- !app_assoc.
    reflexivity.
Qed.

(** Blocks that all load. *)
Lemma loadBlocks_ok blocks :
  (forall block, In block blocks -> blockError JSON_parse block = None) ->
  snd (loadBlocks JSON_parse blocks) = None.
Proof.
  induction blocks as [|block blocks IH]; intros H; cbn [loadBlocks snd];
    [reflexivity|].
  pose proof (H block ltac:(now left)) as Hb. unfold blockError in Hb.
  destruct (JSON_parse block) as [[|parsed]|]; try discriminate.
  cbn [snd]. apply IH. intros b Hin. apply H. now right.
Qed.

(** The first block that fails decides the error and what was loaded. *)
Lemma loadBlocks_split good bad rest e :
  (forall block, In block good -> blockError JSON_parse block = None) ->
  blockError JSON_parse bad = Some e ->
  loadBlocks JSON_parse (good ++ bad :: rest)
  = (fst (loadBlocks JSON_parse good), Some e).
Proof.
  intros Hgood Hbad.
  induction good as [|block good IH]; cbn [app loadBlocks fst].
  - unfold blockError in Hbad.
    destruct (JSON_parse bad) as [[|parsed]|]; try discriminate;
      now injection Hbad as <-.
  - pose proof (Hgood block ltac:(now left)) as Hb. unfold blockError in Hb.
    destruct (JSON_parse block) as [[|parsed]|]; try discriminate.
    rewrite IH by (intros b Hin; apply Hgood; now right).
    reflexivity.
Qed.

Lemma loadBlocks_error blocks e :
  snd (loadBlocks JSON_parse blocks) = Some e ->
  exists good bad rest,
    blocks = good ++ bad :: rest /\
    (forall block, In block good -> blockError JSON_parse block = None) /\
    blockError JSON_parse bad = Some e.
Proof.
  induction blocks as [|block blocks IH]; cbn [loadBlocks snd]; [discriminate|].
  destruct (JSON_parse block) as [[|parsed]|] eqn:E; cbn [snd].
  - intros H. injection H as <-. exists [], block, blocks.
    split; [reflexivity|]. split; [intros b []|]. unfold blockError. now rewrite E.
  - intros H. destruct (IH H) as (good & bad & rest & -> & Hgood & Hbad).
    exists (block :: good), bad, rest. split; [reflexivity|]. split; [|assumption].
    intros b [<-|Hin]; [|now apply Hgood]. unfold blockError. now rewrite E.
  - intros H. injection H as <-. exists [], block, blocks.
    split; [reflexivity|]. split; [intros b []|]. unfold blockError. now rewrite E.
Qed.

Lemma blocks_defined options good bad rest :
  blocksOf options = good ++ bad :: rest -> isDefined (__i18n options) = true.
Proof.
  unfold blocksOf. destruct (__i18n options); [reflexivity|].
  intros H. now destruct good.
Qed.

Lemma addedPairs_additions localNs (entries : Messages) :
  addedPairs (@additions TOptions localNs entries) = registered localNs entries.
Proof.
  unfold additions, registered.
  induction entries as [|entry entries IH]; simpl; [reflexivity|now rewrite IH].
Qed.

Lemma addedPairs_namespaceCalls ns : addedPairs (@namespaceCalls TOptions ns) = [].
Proof. now destruct ns. Qed.

Lemma addedPairs_functionCalls lng ns :
  addedPairs (@functionCalls TOptions lng ns) = [].
Proof. unfold functionCalls. destruct (truthy lng); [reflexivity|now destruct ns]. Qed.

End Runs.

End HookRuns.

Import Resolution HookRuns Bridge UseTranslation.

(** X7: when the component declares <i18n> blocks or options and every
    block parses to a value other than [null], [beforeCreate] returns.  It
    has then added the entries of the blocks in order, after them the
    entries of [i18nOptions.messages], then requested the resolved
    namespaces if there are any, then built the lookup function; it has
    made no other call, registered one pair per added entry, and stored the
    closure with the declared key prefix. *)
Theorem beforeCreate_returns_in_order :
  forall (TOptions : Type) (i18next : I18n)
         (JSON_parse : JSString -> option BundleValue)
         (options : ComponentOptions) (rand : N),
    isDefined (__i18n options) || isDefined (i18nOptions options) = true ->
    (forall block,
        In block (blocksOf options) ->
        exists entries, JSON_parse block = Some (JSobject entries)) ->
    let localNs := localNamespace (name options) rand in
    let entries :=
      fst (loadBlocks JSON_parse (blocksOf options)) ++ messagesEntries options in
    let ns := namespacesUsed localNs entries (resolvedNs i18next options) in
    @beforeCreate TOptions i18next JSON_parse rand (newInstance options)
    = (Returned tt,
       mkInstance options (Some (registered localNs entries))
                  (Some (mkClosure (declaredKeyPrefix options)
                                   (functionFor (declaredLng options) ns))),
       additions localNs entries
       ++ namespaceCalls (resolvedNs i18next options)
       ++ functionCalls (declaredLng options) ns).
Proof.
  intros TOptions i18next JSON_parse options rand Hdef Hparse localNs entries ns.
  rewrite beforeCreate_effect.
  replace (negb (isDefined (__i18n options)) && negb (isDefined (i18nOptions options)))
    with false
    by (destruct (isDefined (__i18n options)), (isDefined (i18nOptions options));
        simpl in *; congruence).
  cbv zeta. rewrite loadBlocks_ok; [reflexivity|].
  intros block Hin. destruct (Hparse block Hin) as (parsed & E).
  unfold blockError. now rewrite E.
Qed.

Lemma beforeCreate_returns_in_order_witness :
  let i18next := mkI18n true (Some (u16 ":")) (Some (NsString (u16 "translation"))) in
  let options :=
    mkOptions (Some (u16 "greeter")) (Some [helloBlock])
              (Some (mkI18nOptions (Some (u16 "de")) None None
                                   (Some [(u16 "de", MsgString (u16 "Hallo"))]))) in
  let hello := MsgObject [(u16 "hello", MsgString (u16 "Hello"))] in
  isDefined (__i18n options) || isDefined (i18nOptions options) = true /\
  (forall block,
      In block (blocksOf options) ->
      exists entries, sampleParse block = Some (JSobject entries)) /\
  @beforeCreate unit i18next sampleParse 7 (newInstance options)
  = (Returned tt,
     mkInstance options
                (Some [(u16 "en", u16 "greeter-7"); (u16 "de", u16 "greeter-7")])
                (Some (mkClosure None
                         (fixedT (Some (u16 "de"))
                                 (Some [u16 "greeter-7"; u16 "translation"])))),
     [addResourceBundle (u16 "en") (u16 "greeter-7") hello true false;
      addResourceBundle (u16 "de") (u16 "greeter-7") (MsgString (u16 "Hallo")) true false;
      loadNamespaces [u16 "translation"];
      getFixedT (Some (u16 "de")) (Some [u16 "greeter-7"; u16 "translation"])]).
Proof.
  cbv zeta.
  set (options :=
         mkOptions (Some (u16 "greeter")) (Some [helloBlock])
                   (Some (mkI18nOptions (Some (u16 "de")) None None
                                        (Some [(u16 "de", MsgString (u16 "Hallo"))])))).
  assert (H1 : isDefined (__i18n options) || isDefined (i18nOptions options) = true)
    by reflexivity.
  assert (H2 : forall block,
             In block (blocksOf options) ->
             exists entries, sampleParse block = Some (JSobject entries)).
  { intros block [<-|[]]. eexists. reflexivity. }
  split; [exact H1|]. split; [exact H2|].
  exact (beforeCreate_returns_in_order
           unit
           (mkI18n true (Some (u16 ":")) (Some (NsString (u16 "translation"))))
           sampleParse options 7%N H1 H2).
Defined.

(** X8: when an <i18n> block fails to load, [beforeCreate] throws the
    error of the first such block: a SyntaxError when the block does not
    parse, a TypeError when it parses to [null].  The entries of the blocks
    before it stay added and registered; no later block and no [messages]
    entry is added, no namespace is requested and no lookup function is
    built.  [__translate] stays undefined, so [$t] on that component uses
    the catalog's generic lookup with the key unchanged. *)
Theorem beforeCreate_throws_on_bad_block :
  forall (TOptions : Type) (i18next : I18n)
         (lookup : TFunction -> JSString -> option TOptions -> JSString)
         (JSON_parse : JSString -> option BundleValue)
         (options : ComponentOptions) (rand : N)
         (good : list JSString) (bad : JSString) (rest : list JSString),
    blocksOf options = good ++ bad :: rest ->
    (forall block,
        In block good -> exists entries, JSON_parse block = Some (JSobject entries)) ->
    JSON_parse bad = None \/ JSON_parse bad = Some JSnull ->
    let localNs := localNamespace (name options) rand in
    let loadedEntries := fst (loadBlocks JSON_parse good) in
    let failed := mkInstance options (Some (registered localNs loadedEntries)) None in
    @beforeCreate TOptions i18next JSON_parse rand (newInstance options)
    = (Thrown match JSON_parse bad with
              | None => SyntaxError
              | Some _ => TypeError
              end,
       failed, additions localNs loadedEntries) /\
    forall sep dns key opts,
      dollar_t (mkI18n true sep dns) lookup (Some failed) key opts
      = (lookup genericT key opts, [usingI18n; translate genericT key opts]).
Proof.
  intros TOptions i18next lookup JSON_parse options rand good bad rest
         Hblocks Hgood Hbad localNs loaded failed.
  split; [|reflexivity].
  rewrite beforeCreate_effect.
  rewrite (blocks_defined _ _ _ _ Hblocks). cbn [negb andb]. cbv zeta.
  rewrite Hblocks.
  rewrite (loadBlocks_split JSON_parse good bad rest
             match JSON_parse bad with None => SyntaxError | Some _ => TypeError end).
  - reflexivity.
  - intros block Hin. destruct (Hgood block Hin) as (parsed & E).
    unfold blockError. now rewrite E.
  - unfold blockError. now destruct Hbad as [-> | ->].
Qed.

Lemma beforeCreate_throws_on_bad_block_witness :
  let i18next := mkI18n true (Some (u16 ":")) None in
  let lookup := fun (_ : TFunction) (k : JSString) (_ : option unit) => k in
  let options := mkOptions None (Some [helloBlock; u16 "null"; u16 "{"]) None in
  let hello := MsgObject [(u16 "hello", MsgString (u16 "Hello"))] in
  blocksOf options = [helloBlock] ++ u16 "null" :: [u16 "{"] /\
  (forall block,
      In block [helloBlock] ->
      exists entries, sampleParse block = Some (JSobject entries)) /\
  (sampleParse (u16 "null") = None \/ sampleParse (u16 "null") = Some JSnull) /\
  @beforeCreate unit i18next sampleParse 7 (newInstance options)
  = (Thrown TypeError,
     mkInstance options (Some [(u16 "en", u16 "7")]) None,
     [addResourceBundle (u16 "en") (u16 "7") hello true false]).
Proof.
  cbv zeta.
  set (options := mkOptions None (Some [helloBlock; u16 "null"; u16 "{"]) None).
  assert (H1 : blocksOf options = [helloBlock] ++ u16 "null" :: [u16 "{"])
    by reflexivity.
  assert (H2 : forall block,
             In block [helloBlock] ->
             exists entries, sampleParse block = Some (JSobject entries)).
  { intros block [<-|[]]. eexists. reflexivity. }
  assert (H3 : sampleParse (u16 "null") = None \/ sampleParse (u16 "null") = Some JSnull)
    by (right; reflexivity).
  split; [exact H1|]. split; [exact H2|]. split; [exact H3|].
  exact (proj1 (beforeCreate_throws_on_bad_block
                  unit (mkI18n true (Some (u16 ":")) None)
                  (fun (_ : TFunction) (k : JSString) (_ : option unit) => k)
                  sampleParse options 7%N [helloBlock] (u16 "null") [u16 "{"]
                  H1 H2 H3)).
Defined.

(** X9: [beforeCreate] on a fresh instance returns, or throws a
    SyntaxError, or throws a TypeError.  It throws exactly when one of the
    component's <i18n> blocks fails to load, and the error is that of the
    first such block: a SyntaxError for a block that does not parse, a
    TypeError for a block that parses to [null]; pushing onto the
    registered-bundle list never fails. *)
Theorem beforeCreate_outcome :
  forall (TOptions : Type) (i18next : I18n)
         (JSON_parse : JSString -> option BundleValue)
         (options : ComponentOptions) (rand : N),
    let outcome :=
      fst (fst (@beforeCreate TOptions i18next JSON_parse rand (newInstance options))) in
    (outcome = Returned tt \/ outcome = Thrown SyntaxError \/
     outcome = Thrown TypeError) /\
    (outcome <> Returned tt <->
     exists block,
       In block (blocksOf options) /\
       (JSON_parse block = None \/ JSON_parse block = Some JSnull)) /\
    (forall e,
        outcome = Thrown e <->
        exists good bad rest,
          blocksOf options = good ++ bad :: rest /\
          (forall block, In block good -> blockError JSON_parse block = None) /\
          blockError JSON_parse bad = Some e) /\
    (forall block,
        (blockError JSON_parse block = Some SyntaxError <-> JSON_parse block = None) /\
        (blockError JSON_parse block = Some TypeError <->
         JSON_parse block = Some JSnull)).
Proof.
  intros TOptions i18next JSON_parse options rand outcome.
  assert (Hthrown : forall e,
             outcome = Thrown e <->
             exists good bad rest,
               blocksOf options = good ++ bad :: rest /\
               (forall block, In block good -> blockError JSON_parse block = None) /\
               blockError JSON_parse bad = Some e).
  { intros e. unfold outcome. rewrite beforeCreate_effect. split.
    - destruct (negb (isDefined (__i18n options)) &&
                negb (isDefined (i18nOptions options))); [discriminate|].
      cbv zeta.
      destruct (snd (loadBlocks JSON_parse (blocksOf options))) as [e'|] eqn:E;
        cbn [fst]; [|discriminate].
      intros H. injection H as ->. now apply loadBlocks_error.
    - intros (good & bad & rest & Hblocks & Hgood & Hbad).
      rewrite (blocks_defined _ _ _ _ Hblocks). cbn [negb andb]. cbv zeta.
      rewrite Hblocks, (loadBlocks_split JSON_parse good bad rest e Hgood Hbad).
      reflexivity. }
  assert (Hkinds : forall block,
             (blockError JSON_parse block = Some SyntaxError <->
              JSON_parse block = None) /\
             (blockError JSON_parse block = Some TypeError <->
              JSON_parse block = Some JSnull)).
  { intros block. unfold blockError.
    destruct (JSON_parse block) as [[|parsed]|]; split; split;
      try discriminate; reflexivity. }
  split; [|split; [|split; assumption]].
  - destruct outcome as [[]|[|]]; auto.
  - split.
    + intros Hne. destruct outcome as [[]|e] eqn:E; [now contradiction Hne|].
      destruct (proj1 (Hthrown e) eq_refl) as (good & bad & rest & Hblocks & _ & Hbad).
      exists bad. split; [rewrite Hblocks; apply in_or_app; right; now left|].
      destruct e; [left; now apply Hkinds|right; now apply Hkinds].
    + intros (block & Hin & Hbad) Hret.
      assert (Hnone : snd (loadBlocks JSON_parse (blocksOf options)) = None).
      { unfold outcome in Hret. rewrite beforeCreate_effect in Hret.
        destruct (negb (isDefined (__i18n options)) &&
                  negb (isDefined (i18nOptions options))) eqn:Hcond.
        - unfold blocksOf in Hin.
          destruct (__i18n options); [discriminate|destruct Hin].
        - cbv zeta in Hret.
          destruct (snd (loadBlocks JSON_parse (blocksOf options)));
            [discriminate|reflexivity]. }
      clear - Hin Hbad Hnone.
      induction (blocksOf options) as [|b bs IH]; [destruct Hin|].
      cbn [loadBlocks snd] in Hnone.
      destruct Hin as [<-|Hin].
      * destruct Hbad as [Hb|Hb]; rewrite Hb in Hnone; discriminate.
      * destruct (JSON_parse b) as [[|parsed]|]; try discriminate.
        now apply IH.
Qed.

(** X10: when [beforeCreate] returns on a component with blocks or options
    and has added no bundle, the registered-bundle list is empty and the
    lookup function is built on the declared or default namespaces alone,
    without the local namespace: [getFixedT] with the declared language, or
    with no language, or the catalog's generic lookup when neither a
    language nor a namespace is there. *)
Theorem no_bundle_no_local_namespace :
  forall (TOptions : Type) (i18next : I18n)
         (JSON_parse : JSString -> option BundleValue)
         (options : ComponentOptions) (rand : N)
         (this1 : ComponentI18nInstance) (log : list (Call TOptions)),
    isDefined (__i18n options) || isDefined (i18nOptions options) = true ->
    beforeCreate i18next JSON_parse rand (newInstance options)
    = (Returned tt, this1, log) ->
    addedPairs log = [] ->
    this1 = mkInstance options (Some [])
              (Some (mkClosure (declaredKeyPrefix options)
                       (functionFor (declaredLng options)
                                    (resolvedNs i18next options)))) /\
    log = namespaceCalls (resolvedNs i18next options)
          ++ functionCalls (declaredLng options) (resolvedNs i18next options).
Proof.
  intros TOptions i18next JSON_parse options rand this1 log Hdef Hrun Hadded.
  rewrite beforeCreate_effect in Hrun.
  replace (negb (isDefined (__i18n options)) && negb (isDefined (i18nOptions options)))
    with false in Hrun
    by (destruct (isDefined (__i18n options)), (isDefined (i18nOptions options));
        simpl in *; congruence).
  cbv zeta in Hrun.
  destruct (snd (loadBlocks JSON_parse (blocksOf options))); [discriminate|].
  injection Hrun as <- <-.
  rewrite !addedPairs_app, addedPairs_additions, addedPairs_namespaceCalls,
    addedPairs_functionCalls, !app_nil_r in Hadded.
  destruct (fst (loadBlocks JSON_parse (blocksOf options)) ++ messagesEntries options);
    [|discriminate].
  split; reflexivity.
Qed.

Lemma no_bundle_no_local_namespace_witness :
  let i18next := mkI18n true (Some (u16 ":")) (Some (NsString (u16 "translation"))) in
  let JSON_parse := sampleParse in
  let options :=
    mkOptions (Some (u16 "greeter")) None
              (Some (mkI18nOptions None (Some (u16 "greet"))
                                   (Some (NsArray [u16 "a"; u16 "b"])) None)) in
  let created := @beforeCreate unit i18next JSON_parse 7 (newInstance options) in
  isDefined (__i18n options) || isDefined (i18nOptions options) = true /\
  created = (Returned tt, snd (fst created), snd created) /\
  addedPairs (snd created) = [] /\
  snd (fst created)
  = mkInstance options (Some [])
      (Some (mkClosure (Some (u16 "greet"))
                       (fixedT None (Some [u16 "a"; u16 "b"])))) /\
  snd created = [loadNamespaces [u16 "a"; u16 "b"];
                 getFixedT None (Some [u16 "a"; u16 "b"])].
Proof.
  cbv zeta.
  split; [reflexivity|]. split; [vm_compute; reflexivity|].
  split; [vm_compute; reflexivity|].
  apply (no_bundle_no_local_namespace
           unit
           (mkI18n true (Some (u16 ":")) (Some (NsString (u16 "translation"))))
           sampleParse
           (mkOptions (Some (u16 "greeter")) None
              (Some (mkI18nOptions None (Some (u16 "greet"))
                                   (Some (NsArray [u16 "a"; u16 "b"])) None)))
           7%N).
  - reflexivity.
  - vm_compute. reflexivity.
  - vm_compute. reflexivity.
Defined.

(** X11: [unmounted] never throws and leaves the component as it is: the
    registered-bundle list is not cleared, so a second teardown on the same
    component issues the same removals again. *)
Theorem unmounted_keeps_instance :
  forall (TOptions : Type) (this : ComponentI18nInstance),
    let removals :=
      map (fun entry => @removeResourceBundle TOptions (fst entry) (snd entry))
          (bundlesOf this) in
    unmounted this = (Returned tt, this, removals) /\
    bind unmounted (fun _ => unmounted) this
    = (Returned tt, this, removals ++ removals).
Proof.
  intros TOptions this removals.
  pose proof (unmounted_run TOptions this) as H. fold removals in H.
  split; [exact H|].
  rewrite (bind_eval _ _ _ _ _ _ _ H). now rewrite H.
Qed.

(** X12: [handleI18nOptions], on a component whose registered-bundle list
    is allocated, never throws.  It returns the declared language and key
    prefix and the resolved namespaces: the declared ones, else the
    catalog's default, a single string as a list of one.  It adds the
    entries of [messages] first and then requests the resolved namespaces,
    exactly when there are any; without [i18nOptions] it does nothing and
    returns three undefined values. *)
Theorem handleI18nOptions_effect :
  forall (TOptions : Type) (i18next : I18n)
         (localNs : JSString) (options o : ComponentOptions)
         (bundles : list (JSString * JSString)) (tr : option TranslateClosure),
    handleI18nOptions i18next options (@loadBundle TOptions localNs)
                      (mkInstance o (Some bundles) tr)
    = (Returned (declaredLng options, resolvedNs i18next options,
                 declaredKeyPrefix options),
       mkInstance o (Some (bundles ++ registered localNs (messagesEntries options))) tr,
       additions localNs (messagesEntries options)
       ++ namespaceCalls (resolvedNs i18next options)) /\
    (i18nOptions options = None ->
     handleI18nOptions i18next options (@loadBundle TOptions localNs)
                       (mkInstance o (Some bundles) tr)
     = (Returned (None, None, None), mkInstance o (Some bundles) tr, [])).
Proof.
  intros. split; [apply handleI18nOptions_run|].
  intros H. unfold handleI18nOptions. now rewrite H.
Qed.

(** X13: the installer registers [invalidate] for an event of [rerenderOn]
    on the catalog when the event is languageChanged or loaded, on the
    catalog's store when it is added or removed and the store exists, and
    nowhere when the store does not exist.  It registers nothing else: with
    a store there is one registration per listed event, without a store one
    per listed languageChanged or loaded. *)
Theorem subscriptions_by_event :
  forall (hasStore : bool) (rerenderOn : list RerenderEvent) (s : Subscription),
    (In s (subscribe hasStore rerenderOn) <->
     In (event s) rerenderOn /\
     emitter s = (if isStoreEvent (event s) then onStore else onCatalog) /\
     (isStoreEvent (event s) = true -> hasStore = true)) /\
    length (subscribe true rerenderOn) = length rerenderOn /\
    subscribe false rerenderOn
    = map (mkSubscription onCatalog)
          (filter (fun ev => negb (isStoreEvent ev)) rerenderOn).
Proof.
  intros hasStore rerenderOn s. split; [|split].
  - unfold subscribe. rewrite in_flat_map. split.
    + intros (ev & Hin & Hs).
      destruct ev, hasStore; simpl in Hs;
        try contradiction; destruct Hs as [<-|Hs]; try contradiction;
        simpl; repeat split; auto; discriminate.
    + intros (Hin & Hem & Hstore). exists (event s). split; [assumption|].
      destruct s as [em ev]. simpl in *. subst em.
      destruct ev, hasStore; simpl in *; auto;
        specialize (Hstore eq_refl); discriminate.
  - unfold subscribe.
    induction rerenderOn as [|ev evs IH]; [reflexivity|].
    cbn [flat_map]. rewrite length_app, IH. now destruct ev.
  - unfold subscribe.
    induction rerenderOn as [|ev evs IH]; [reflexivity|].
    cbn [flat_map filter]. rewrite IH. now destruct ev.
Qed.

(** X14: inside a component on which [beforeCreate] has returned, with the
    plugin installed and the catalog initialized, the [t] of
    [useTranslation] reads the reactive marker and then calls the lookup
    function built for that component, with the declared key prefix and a
    dot in front of the key unless the prefix is empty or undefined or the
    key contains the namespace separator.  With no current instance
    [useTranslation] fails with its error message; reading a property
    through the returned catalog reads the marker too. *)
Theorem useTranslation_in_component :
  forall (TOptions : Type) (i18next : I18n)
         (lookup : TFunction -> JSString -> option TOptions -> JSString)
         (JSON_parse : JSString -> option BundleValue)
         (options : ComponentOptions) (rand : N)
         (this1 : ComponentI18nInstance) (log : list (Call TOptions))
         (sep : option JSString) (dns : option Namespaces),
    isDefined (__i18n options) || isDefined (i18nOptions options) = true ->
    beforeCreate i18next JSON_parse rand (newInstance options)
    = (Returned tt, this1, log) ->
    let catalog := mkI18n true sep dns in
    let prefix := declaredKeyPrefix options in
    let t :=
      functionFor (declaredLng options)
        (namespacesUsed (localNamespace (name options) rand)
           (fst (loadBlocks JSON_parse (blocksOf options)) ++ messagesEntries options)
           (resolvedNs i18next options)) in
    (exists r,
        useTranslation catalog lookup (Some (mkInternal true (Some this1))) = inr r /\
        result_i18next r bool isInitialized = (true, [usingI18n]) /\
        forall key opts,
          let key' :=
            if negb (truthy prefix) || includesNs catalog key then key
            else match prefix with Some p => p | None => [] end ++ u16 "." ++ key in
          result_t r key opts
          = (lookup t key' opts, [usingI18n; translate t key' opts])) /\
    (exists message, useTranslation catalog lookup None = inl (NoVueInstance message)).
Proof.
  intros TOptions i18next lookup JSON_parse options rand this1 log sep dns
         Hdef Hrun catalog prefix t.
  split; [|eexists; reflexivity].
  rewrite beforeCreate_effect in Hrun.
  replace (negb (isDefined (__i18n options)) && negb (isDefined (i18nOptions options)))
    with false in Hrun
    by (destruct (isDefined (__i18n options)), (isDefined (i18nOptions options));
        simpl in *; congruence).
  cbv zeta in Hrun.
  destruct (snd (loadBlocks JSON_parse (blocksOf options))); [discriminate|].
  injection Hrun as <- _.
  eexists. split; [reflexivity|]. split; [reflexivity|].
  intros key opts. cbn [result_t]. unfold dollar_t, catalog.
  cbn [isInitialized __translate proxy]. unfold applyTranslate, callT.
  cbn [closure_keyPrefix closure_t fst snd app]. fold prefix. fold t.
  now destruct (negb (truthy prefix) || includesNs (mkI18n true sep dns) key).
Qed.

Lemma useTranslation_in_component_witness :
  let i18next := mkI18n true (Some (u16 ":")) None in
  let lookup := fun (_ : TFunction) (k : JSString) (_ : option unit) => k in
  let JSON_parse := sampleParse in
  let options :=
    mkOptions None None
              (Some (mkI18nOptions None (Some (u16 "greet")) None None)) in
  let created := @beforeCreate unit i18next JSON_parse 7 (newInstance options) in
  isDefined (__i18n options) || isDefined (i18nOptions options) = true /\
  created = (Returned tt, snd (fst created), snd created) /\
  exists r,
    useTranslation i18next lookup (Some (mkInternal true (Some (snd (fst created)))))
    = inr r /\
    result_t r (u16 "key") None
    = (u16 "greet.key", [usingI18n; translate genericT (u16 "greet.key") None]).
Proof.
  cbv zeta.
  split; [reflexivity|]. split; [vm_compute; reflexivity|].
  destruct (useTranslation_in_component
              unit (mkI18n true (Some (u16 ":")) None)
              (fun (_ : TFunction) (k : JSString) (_ : option unit) => k)
              sampleParse
              (mkOptions None None
                 (Some (mkI18nOptions None (Some (u16 "greet")) None None)))
              7%N _ _ (Some (u16 ":")) None eq_refl eq_refl)
    as [(r & Hr & _ & Ht) _].
  exists r. split; [exact Hr|]. exact (Ht (u16 "key") None).
Defined.
